(** * Windows named-pipe endpoint (source/os/windows/named-pipe.cpp)

    A shallow embedding of the named-pipe wrapper: parameter validation,
    name normalisation, the three constructors, the destructor, the two
    availability probes and the overlapped read and write submissions.

    The Win32 API is an environment the program talks to.  It is modelled by
    an oracle that answers every native call from the history of the calls
    made so far; the thread's last-error value and the ordered log of calls
    form the state that is threaded through the code.  C++ exceptions are the
    error half of a state-and-exception monad. *)

From Stdlib Require Import Arith NArith List String Ascii Bool Lia.
Import ListNotations.

Local Open Scope list_scope.
Local Open Scope string_scope.
Local Open Scope N_scope.

(** ** Machine types *)

Definition DWORD := N.
Definition HANDLE := N.
Definition size_t := N.

(** A wide string is a sequence of 16-bit code units. *)
Definition wstring := list N.

(** Conversion of a wider unsigned value to a 32-bit [DWORD]. *)
Definition to_DWORD (n : N) : DWORD := n mod 2 ^ 32.

(** ** Constants of the Windows headers

    The values the Windows SDK gives to the names the source uses. *)

Definition MAX_PATH : N := 260.
Definition PIPE_UNLIMITED_INSTANCES : N := 255.

Definition ERROR_SUCCESS : DWORD := 0.
Definition ERROR_FILE_NOT_FOUND : DWORD := 2.
Definition ERROR_ACCESS_DENIED : DWORD := 5.
Definition ERROR_BROKEN_PIPE : DWORD := 109.
Definition ERROR_MORE_DATA : DWORD := 234.
Definition ERROR_IO_PENDING : DWORD := 997.

Definition PIPE_ACCESS_DUPLEX : DWORD := 3.
Definition FILE_FLAG_WRITE_THROUGH : DWORD := 2147483648.
Definition FILE_FLAG_OVERLAPPED : DWORD := 1073741824.
Definition FILE_FLAG_FIRST_PIPE_INSTANCE : DWORD := 524288.
Definition PIPE_TYPE_BYTE : DWORD := 0.
Definition PIPE_TYPE_MESSAGE : DWORD := 4.
Definition PIPE_READMODE_BYTE : DWORD := 0.
Definition PIPE_READMODE_MESSAGE : DWORD := 2.
Definition PIPE_WAIT : DWORD := 0.
Definition GENERIC_READ : DWORD := 2147483648.
Definition GENERIC_WRITE : DWORD := 1073741824.
Definition OPEN_EXISTING : DWORD := 3.
Definition INVALID_HANDLE_VALUE : HANDLE := 18446744073709551615.

(** ** Constants of the source file *)

Definition DEFAULT_BUFFER_SIZE : DWORD := 65535.
Definition DEFAULT_WAIT_TIME : DWORD := 100.
Definition MAX_PATH_MINUS_PREFIX : N := MAX_PATH - 9.

(** ** Enumerations of the header *)

(** Modelled from the spec: the enumeration [os::windows::pipe_type] of
    named-pipe.hpp, which is not part of this source file ("configured pipe
    type (Byte | Message)"). *)
Module pipe_type.
Inductive t := Byte | Message.
End pipe_type.

(** Modelled from the spec: the enumeration [os::windows::pipe_read_mode]
    of named-pipe.hpp ("configured read mode (Byte | Message)"). *)
Module pipe_read_mode.
Inductive t := Byte | Message.
End pipe_read_mode.

(** Modelled from the spec: the enumeration [os::error], declared outside
    this source file ("Outcome codes exposed to callers: Success, MoreData,
    Disconnected, Error"). *)
Module error.
Inductive t := Success | MoreData | Disconnected | Error.
End error.

(** ** Exceptions *)

Inductive exception :=
| invalid_argument (what : string)
| runtime_error (what : string)
| range_error.

(** ** Value-returning functions without a return statement

    [create_logic], [open_logic], [available] and [total_available] are
    declared with a result type but reach their closing brace without a
    [return] on the path that did not fail.  For the two probes [FallsOff]
    records that the callee produced no outcome there.  For [create_logic]
    and [open_logic], whose callers are the constructors, a run that gets
    there has no defined continuation: it ends as [Undefined] (see
    [result] below). *)

Inductive retval (A : Type) :=
| Returns (a : A)
| FallsOff.
Arguments Returns {A} a.
Arguments FallsOff {A}.

(** What a caller that reads the result anyway would get: the returned
    value, or whatever [junk] the result register held. *)
Definition read_retval {A : Type} (junk : A) (r : retval A) : A :=
  match r with
  | Returns a => a
  | FallsOff => junk
  end.

(** ** Characters and strings *)

Definition backslash : ascii := ascii_of_nat 92.
Definition slash : ascii := ascii_of_nat 47.
Definition NUL : ascii := ascii_of_nat 0.

Fixpoint map_string (f : ascii -> ascii) (s : string) : string :=
  match s with
  | EmptyString => EmptyString
  | String c rest => String (f c) (map_string f rest)
  end.

Definition length (s : string) : size_t := N.of_nat (String.length s).

(** The literal ["\\\\.\\pipe\\"] of the source: nine characters. *)
Definition pipe_prefix : string :=
  String backslash (String backslash (String "." (String backslash
    ("pipe" ++ String backslash EmptyString)))).

(** [TOSTRING(MAX_PATH_MINUS_PREFIX)] and [TOSTRING(PIPE_UNLIMITED_INSTANCES)]
    after macro expansion. *)
Definition TOSTRING_MAX_PATH_MINUS_PREFIX : string := "(260 - 9)".
Definition TOSTRING_PIPE_UNLIMITED_INSTANCES : string := "255".

(** [%lX]: upper-case hexadecimal, no padding.  A [DWORD] has at most eight
    digits. *)
Definition hex_digit (d : N) : ascii :=
  nth (N.to_nat d)
      ["0"; "1"; "2"; "3"; "4"; "5"; "6"; "7";
       "8"; "9"; "A"; "B"; "C"; "D"; "E"; "F"]%char "0"%char.

Fixpoint hex_digits (fuel : nat) (n : N) (acc : string) : string :=
  match fuel with
  | O => acc
  | S fuel' =>
      let acc' := String (hex_digit (n mod 16)) acc in
      if n / 16 =? 0 then acc' else hex_digits fuel' (n / 16) acc'
  end.

Definition sprintf_lX (n : DWORD) : string := hex_digits 8 n "".

(** The view the OS has of [name.c_str()]: the code units before the first
    terminator. *)
Fixpoint c_str (w : wstring) : wstring :=
  match w with
  | [] => []
  | u :: rest => if u =? 0 then [] else u :: c_str rest
  end.

(** ** make_windows_compatible *)

(** The loop over the characters of [out]. *)
Definition forward_slashes (out : string) : string :=
  map_string (fun v => if Ascii.eqb v backslash then slash else v) out.

Definition make_windows_compatible (name : string) : string :=
  let out := forward_slashes name in
  pipe_prefix ++ out.

(** ** The environment: native calls, request methods, the world *)

(** Which of the two counters of [PeekNamedPipe] the caller asked for; the
    other out-pointers are NULL. *)
Inductive peek_field := lpTotalBytesAvail | lpBytesLeftThisMessage.

(** Native calls on kernel objects, with the arguments the source passes.
    Data buffers and the address of the completion descriptor are not
    tracked. *)
Inductive syscall :=
| CreateNamedPipeW (lpName : wstring)
                   (dwOpenMode dwPipeMode nMaxInstances
                    nOutBufferSize nInBufferSize nDefaultTimeOut : DWORD)
| CreateFileW (lpFileName : wstring)
              (dwDesiredAccess dwShareMode
               dwCreationDisposition dwFlagsAndAttributes : DWORD)
| DisconnectNamedPipe (hNamedPipe : HANDLE)
| CloseHandle (hObject : HANDLE)
| PeekNamedPipe (hNamedPipe : HANDLE) (field : peek_field)
| ReadFileEx (hFile : HANDLE) (nNumberOfBytesToRead : DWORD)
| WriteFileEx (hFile : HANDLE) (nNumberOfBytesToWrite : DWORD).

(** What a native call hands back: its return value (a handle or a BOOL),
    the counter written through the non-NULL out-pointer if any, and the
    last-error value it sets if it sets one. *)
Record answer := {
  ans_ret : N;
  ans_out : option DWORD;
  ans_err : option DWORD
}.

(** Methods of [os::windows::async_request] that the source invokes. *)
Inductive request_method :=
| m_construct (h : HANDLE)
| m_set_handle (h : HANDLE)
| m_get_overlapped_pointer
| m_cancel
| m_set_valid (valid : bool).

Inductive event :=
| Sys (c : syscall)
| Req (m : request_method).

(** The thread's last-error value and the log of everything done so far. *)
Record world := {
  last_error : DWORD;
  trace : list event
}.

Fixpoint syscalls (t : list event) : list syscall :=
  match t with
  | [] => []
  | Sys c :: rest => c :: syscalls rest
  | Req _ :: rest => syscalls rest
  end.

(** ** The monad: state over [world], with C++ exceptions

    A run returns a value, leaves by an exception, or reaches a point
    where the language defines no behaviour: the closing brace of a
    value-returning function that has no [return].  Nothing is said about
    what happens after that point; the world is the one reached there. *)

Inductive result (A : Type) :=
| Ret (a : A)
| Throw (e : exception)
| Undefined.
Arguments Ret {A} a.
Arguments Throw {A} e.
Arguments Undefined {A}.

Definition M (A : Type) : Type := world -> result A * world.

Definition ret {A : Type} (a : A) : M A := fun w => (Ret a, w).

Definition throw {A : Type} (e : exception) : M A := fun w => (Throw e, w).

Definition undefined {A : Type} : M A := fun w => (Undefined, w).

Definition bind {A B : Type} (m : M A) (k : A -> M B) : M B :=
  fun w =>
    match m w with
    | (Ret a, w') => k a w'
    | (Throw e, w') => (Throw e, w')
    | (Undefined, w') => (Undefined, w')
    end.

Notation "x <- m ;; k" := (bind m (fun x => k))
  (at level 61, m at next level, right associativity).
Notation "' pat <- m ;; k" := (bind m (fun x => match x with pat => k end))
  (at level 61, pat pattern, m at next level, right associativity).
Notation "m ;; k" := (bind m (fun _ => k))
  (at level 61, right associativity).

Definition SetLastError (e : DWORD) : M unit :=
  fun w => (Ret tt, {| last_error := e; trace := trace w |}).

Definition GetLastError : M DWORD :=
  fun w => (Ret (last_error w), w).

Definition log (e : event) : M unit :=
  fun w => (Ret tt, {| last_error := last_error w; trace := (trace w ++ [e])%list |}).

(** ** The async_request object *)

(** Modelled from the spec: the class [os::windows::async_request] (its
    header and implementation are not part of this source file).  The spec
    gives it the handle it operates on and a validity flag that is "true
    once an operation has been submitted and not yet resolved/cancelled";
    a request is idle on construction, [set_handle] rebinds the handle,
    [cancel] abandons the in-flight operation.  Every method invocation is
    logged in the trace. *)
Record async_request := {
  ar_handle : HANDLE;
  ar_valid : bool
}.

Definition make_async_request (h : HANDLE) : M async_request :=
  log (Req (m_construct h)) ;;
  ret {| ar_handle := h; ar_valid := false |}.

Definition set_handle (r : async_request) (h : HANDLE) : M async_request :=
  log (Req (m_set_handle h)) ;;
  ret {| ar_handle := h; ar_valid := ar_valid r |}.

Definition get_overlapped_pointer (r : async_request) : M unit :=
  log (Req m_get_overlapped_pointer).

Definition cancel (r : async_request) : M async_request :=
  log (Req m_cancel) ;;
  ret {| ar_handle := ar_handle r; ar_valid := false |}.

Definition set_valid (r : async_request) (valid : bool) : M async_request :=
  log (Req (m_set_valid valid)) ;;
  ret {| ar_handle := ar_handle r; ar_valid := valid |}.

(** ** The pipe object *)

(** Modelled from the spec: the class [os::windows::named_pipe] is declared
    in named-pipe.hpp, which is not part of this source file; [handle] is
    the one member the code of this file reads and writes ("opaque OS
    handle", null when the endpoint holds no resource). *)
Record named_pipe := { handle : HANDLE }.

(** ** validate_create_param, validate_open_param *)

Definition validate_create_param (name : string) (max_instances : size_t) : M unit :=
  if length name =? 0 then
    throw (invalid_argument "'name' can't be empty.")
  else if MAX_PATH_MINUS_PREFIX <=? length name then
    throw (invalid_argument
             ("'name' can't be longer than " ++ TOSTRING_MAX_PATH_MINUS_PREFIX
              ++ " characters."))
  else if max_instances =? 0 then
    throw (invalid_argument "'max_instances' can't be zero.")
  else if PIPE_UNLIMITED_INSTANCES <? max_instances then
    throw (invalid_argument
             ("'max_instances' can't be greater than "
              ++ TOSTRING_PIPE_UNLIMITED_INSTANCES))
  else ret tt.

Definition validate_open_param (name : string) : M unit :=
  if length name =? 0 then
    throw (invalid_argument "'name' can't be empty.")
  else if MAX_PATH_MINUS_PREFIX <=? length name then
    throw (invalid_argument
             ("'name' can't be longer than " ++ TOSTRING_MAX_PATH_MINUS_PREFIX
              ++ " characters."))
  else ret tt.

(** ** The code that talks to the OS *)

Section NamedPipe.

(** The Win32 API: the answer to a native call, given the native calls made
    before it. *)
Variable os : list syscall -> syscall -> answer.

(** [std::wstring_convert<std::codecvt_utf8_utf16<wchar_t>>::from_bytes];
    [None] when the bytes are not a UTF-8 text, where the library throws
    [std::range_error]. *)
Variable from_bytes : string -> option wstring.

(** A native call: logged, answered by the API, and the last-error value
    replaced when the API sets it. *)
Definition native (c : syscall) : M answer :=
  fun w =>
    let a := os (syscalls (trace w)) c in
    (Ret a,
     {| last_error := match ans_err a with
                      | Some e => to_DWORD e
                      | None => last_error w
                      end;
        trace := (trace w ++ [Sys c])%list |}).

Definition make_wide_string (text : string) : M wstring :=
  match from_bytes text with
  | Some wide => ret wide
  | None => throw range_error
  end.

(** [handle] is the reference parameter of the source; it would be returned
    here next to the result.  The function has no [return] statement: when
    the creation did not fail, control reaches the closing brace of a
    function declared [bool], and the run is [undefined] from there. *)
Definition create_logic (name : wstring) (max_instances : size_t)
    (type : pipe_type.t) (mode : pipe_read_mode.t) (is_unique : bool)
  : M (HANDLE * retval bool) :=
  let pipe_open_mode :=
    N.lor (N.lor PIPE_ACCESS_DUPLEX FILE_FLAG_WRITE_THROUGH) FILE_FLAG_OVERLAPPED in
  let pipe_open_mode :=
    if is_unique then N.lor pipe_open_mode FILE_FLAG_FIRST_PIPE_INSTANCE
    else pipe_open_mode in
  let pipe_type :=
    match type with
    | pipe_type.Message => PIPE_TYPE_MESSAGE
    | _ => PIPE_TYPE_BYTE
    end in
  let pipe_read_mode :=
    match mode with
    | pipe_read_mode.Message => PIPE_READMODE_MESSAGE
    | _ => PIPE_READMODE_BYTE
    end in
  SetLastError ERROR_SUCCESS ;;
  a <- native (CreateNamedPipeW (c_str name) pipe_open_mode
                 (N.lor (N.lor pipe_type pipe_read_mode) PIPE_WAIT)
                 (to_DWORD max_instances)
                 DEFAULT_BUFFER_SIZE DEFAULT_BUFFER_SIZE DEFAULT_WAIT_TIME) ;;
  let handle := ans_ret a in
  e <- GetLastError ;;
  if (handle =? 0) || negb (e =? ERROR_SUCCESS) then
    code <- GetLastError ;;
    throw (runtime_error
             ("Creating Named Pipe failed with error code " ++ sprintf_lX code ++ "."))
  else undefined.

(** As [create_logic]: declared [bool], no [return] statement. *)
Definition open_logic (name : wstring) (mode : pipe_read_mode.t)
  : M (HANDLE * retval bool) :=
  SetLastError ERROR_SUCCESS ;;
  a <- native (CreateFileW (c_str name) (N.lor GENERIC_READ GENERIC_WRITE) 0
                 OPEN_EXISTING FILE_FLAG_OVERLAPPED) ;;
  let handle := ans_ret a in
  e <- GetLastError ;;
  if (handle =? 0) || negb (e =? ERROR_SUCCESS) then
    code <- GetLastError ;;
    throw (runtime_error
             ("Opening Named Pipe failed with error code " ++ sprintf_lX code ++ "."))
  else undefined.

(** *** Constructors *)

(** [named_pipe(os::create_only_t, ...)] *)
Definition create_only (name : string) (max_instances : size_t)
    (type : pipe_type.t) (mode : pipe_read_mode.t) (is_unique : bool)
  : M named_pipe :=
  validate_create_param name max_instances ;;
  wide_name <- make_wide_string (make_windows_compatible (name ++ String NUL "")) ;;
  '(handle, _) <- create_logic wide_name max_instances type mode is_unique ;;
  ret {| handle := handle |}.

(** [named_pipe(os::create_or_open_t, ...)].  The condition reads the result
    of [create_logic]; [junk] stands for the value it would see where that
    function returned none.  As [create_logic] never returns, no defined
    run gets as far as the condition. *)
Definition create_or_open (junk : bool) (name : string) (max_instances : size_t)
    (type : pipe_type.t) (mode : pipe_read_mode.t) (is_unique : bool)
  : M named_pipe :=
  validate_create_param name max_instances ;;
  wide_name <- make_wide_string (make_windows_compatible (name ++ String NUL "")) ;;
  '(handle, created) <- create_logic wide_name max_instances type mode is_unique ;;
  if negb (read_retval junk created) then
    '(handle, _) <- open_logic wide_name mode ;;
    ret {| handle := handle |}
  else ret {| handle := handle |}.

(** [named_pipe(os::open_only_t, ...)] *)
Definition open_only (name : string) (mode : pipe_read_mode.t) : M named_pipe :=
  validate_open_param name ;;
  wide_name <- make_wide_string (make_windows_compatible (name ++ String NUL "")) ;;
  '(handle, _) <- open_logic wide_name mode ;;
  ret {| handle := handle |}.

(** *** Destructor *)

Definition destroy (this : named_pipe) : M unit :=
  if negb (handle this =? 0) then
    native (DisconnectNamedPipe (handle this)) ;;
    native (CloseHandle (handle this)) ;;
    ret tt
  else ret tt.

(** *** available, total_available

    [avail] is the reference parameter: its value on entry is an argument,
    its value on exit is returned next to the outcome. *)

Definition available (this : named_pipe) (avail : size_t)
  : M (retval error.t * size_t) :=
  let bytes : DWORD := 0 in
  SetLastError ERROR_SUCCESS ;;
  a <- native (PeekNamedPipe (handle this) lpBytesLeftThisMessage) ;;
  let bytes := match ans_out a with Some b => to_DWORD b | None => bytes end in
  e <- GetLastError ;;
  if (ans_ret a =? 0) || negb (e =? ERROR_SUCCESS) then
    code <- GetLastError ;;
    if code =? ERROR_BROKEN_PIPE then ret (Returns error.Disconnected, avail)
    else ret (Returns error.Error, avail)
  else
    let avail := bytes in
    ret (FallsOff, avail).

Definition total_available (this : named_pipe) (avail : size_t)
  : M (retval error.t * size_t) :=
  let bytes : DWORD := 0 in
  SetLastError ERROR_SUCCESS ;;
  a <- native (PeekNamedPipe (handle this) lpTotalBytesAvail) ;;
  let bytes := match ans_out a with Some b => to_DWORD b | None => bytes end in
  e <- GetLastError ;;
  if (ans_ret a =? 0) || negb (e =? ERROR_SUCCESS) then
    code <- GetLastError ;;
    if code =? ERROR_BROKEN_PIPE then ret (Returns error.Disconnected, avail)
    else ret (Returns error.Error, avail)
  else
    let avail := bytes in
    ret (FallsOff, avail).

(** *** read, write

    [request] is the [unique_ptr] reference: [None] on entry is the empty
    pointer; the request it holds on exit is returned next to the outcome.
    [returned] is the early return from inside the failure branch, if one
    was taken; otherwise control continues after the branch. *)

Definition read (this : named_pipe) (request : option async_request)
    (buffer_length : size_t) : M (error.t * async_request) :=
  request <- match request with
             | None => make_async_request (handle this)
             | Some r => ret r
             end ;;
  request <- set_handle request (handle this) ;;
  SetLastError ERROR_SUCCESS ;;
  get_overlapped_pointer request ;;
  a <- native (ReadFileEx (handle this) (to_DWORD buffer_length)) ;;
  e <- GetLastError ;;
  returned <-
    (if (ans_ret a =? 0) || negb (e =? ERROR_SUCCESS) then
       error <- GetLastError ;;
       if error =? ERROR_MORE_DATA then ret (Some (error.MoreData, request))
       else if error =? ERROR_BROKEN_PIPE then ret (Some (error.Disconnected, request))
       else if negb (error =? ERROR_IO_PENDING) then
         request <- cancel request ;;
         ret (Some (error.Error, request))
       else ret None
     else ret None) ;;
  match returned with
  | Some out => ret out
  | None =>
      request <- set_valid request true ;;
      ret (error.Success, request)
  end.

Definition write (this : named_pipe) (request : option async_request)
    (buffer_length : size_t) : M (error.t * async_request) :=
  request <- match request with
             | None => make_async_request (handle this)
             | Some r => ret r
             end ;;
  request <- set_handle request (handle this) ;;
  SetLastError ERROR_SUCCESS ;;
  get_overlapped_pointer request ;;
  a <- native (WriteFileEx (handle this) (to_DWORD buffer_length)) ;;
  e <- GetLastError ;;
  returned <-
    (if (ans_ret a =? 0) || negb (e =? ERROR_SUCCESS) then
       error <- GetLastError ;;
       if error =? ERROR_MORE_DATA then ret (Some (error.MoreData, request))
       else if error =? ERROR_BROKEN_PIPE then ret (Some (error.Disconnected, request))
       else if negb (error =? ERROR_IO_PENDING) then
         request <- cancel request ;;
         ret (Some (error.Error, request))
       else ret None
     else ret None) ;;
  match returned with
  | Some out => ret out
  | None =>
      request <- set_valid request true ;;
      ret (error.Success, request)
  end.

End NamedPipe.

(** ** Selectors over the sibling operations *)

Inductive probe := Available | TotalAvailable.

Definition probe_call (which : probe) (this : named_pipe) : syscall :=
  match which with
  | Available => PeekNamedPipe (handle this) lpBytesLeftThisMessage
  | TotalAvailable => PeekNamedPipe (handle this) lpTotalBytesAvail
  end.

Definition peek (os : list syscall -> syscall -> answer) (which : probe)
  : named_pipe -> size_t -> M (retval error.t * size_t) :=
  match which with
  | Available => available os
  | TotalAvailable => total_available os
  end.

Inductive direction := Reading | Writing.

Definition transfer_call (dir : direction) (this : named_pipe)
    (buffer_length : size_t) : syscall :=
  match dir with
  | Reading => ReadFileEx (handle this) (to_DWORD buffer_length)
  | Writing => WriteFileEx (handle this) (to_DWORD buffer_length)
  end.

Definition transfer (os : list syscall -> syscall -> answer) (dir : direction)
  : named_pipe -> option async_request -> size_t -> M (error.t * async_request) :=
  match dir with
  | Reading => read os
  | Writing => write os
  end.

(** The four operations that report an outcome, with their arguments. *)
Inductive operation :=
| op_available (avail : size_t)
| op_total_available (avail : size_t)
| op_read (request : option async_request) (buffer_length : size_t)
| op_write (request : option async_request) (buffer_length : size_t).

Definition operation_call (op : operation) (this : named_pipe) : syscall :=
  match op with
  | op_available _ => probe_call Available this
  | op_total_available _ => probe_call TotalAvailable this
  | op_read _ n => transfer_call Reading this n
  | op_write _ n => transfer_call Writing this n
  end.

(** The outcome an operation hands to its caller. *)
Definition outcome (os : list syscall -> syscall -> answer) (op : operation)
    (this : named_pipe) (w : world) : result (retval error.t) :=
  match op with
  | op_available avail =>
      match fst (available os this avail w) with
      | Ret (r, _) => Ret r
      | Throw e => Throw e
      | Undefined => Undefined
      end
  | op_total_available avail =>
      match fst (total_available os this avail w) with
      | Ret (r, _) => Ret r
      | Throw e => Throw e
      | Undefined => Undefined
      end
  | op_read request n =>
      match fst (read os this request n w) with
      | Ret (r, _) => Ret (Returns r)
      | Throw e => Throw e
      | Undefined => Undefined
      end
  | op_write request n =>
      match fst (write os this request n w) with
      | Ret (r, _) => Ret (Returns r)
      | Throw e => Throw e
      | Undefined => Undefined
      end
  end.

(** The world an operation leaves behind. *)
Definition outcome_world (os : list syscall -> syscall -> answer) (op : operation)
    (this : named_pipe) (w : world) : world :=
  match op with
  | op_available avail => snd (available os this avail w)
  | op_total_available avail => snd (total_available os this avail w)
  | op_read request n => snd (read os this request n w)
  | op_write request n => snd (write os this request n w)
  end.

(** The last-error value seen after [SetLastError(ERROR_SUCCESS)] followed
    by the native call [c], and the test the source makes on the call. *)
Definition native_status (os : list syscall -> syscall -> answer)
    (w : world) (c : syscall) : DWORD :=
  match ans_err (os (syscalls (trace w)) c) with
  | Some e => to_DWORD e
  | None => ERROR_SUCCESS
  end.

Definition native_failed (os : list syscall -> syscall -> answer)
    (w : world) (c : syscall) : bool :=
  (ans_ret (os (syscalls (trace w)) c) =? 0)
  || negb (native_status os w c =? ERROR_SUCCESS).

(** The events a call added to the log. *)
Definition new_events (before after : world) : list event :=
  skipn (List.length (trace before)) (trace after).

(** ** Concrete environments, for running the code *)

(** An API that gives the same answer to every call. *)
Definition os_always (a : answer) : list syscall -> syscall -> answer :=
  fun _ _ => a.

Definition fails_with (e : DWORD) : answer :=
  {| ans_ret := 0; ans_out := None; ans_err := Some e |}.

Definition succeeds (r : N) (out : option DWORD) : answer :=
  {| ans_ret := r; ans_out := out; ans_err := None |}.

Fixpoint wstring_eqb (a b : wstring) : bool :=
  match a, b with
  | [], [] => true
  | x :: a', y :: b' => (x =? y) && wstring_eqb a' b'
  | _, _ => false
  end.

(** An API in which another process holds the only instance of the pipe
    [held]: creating an instance of that name is refused with
    ERROR_ACCESS_DENIED, opening it yields handle [h]; other names can be
    created and cannot be opened. *)
Definition os_name_held (held : wstring) (h : HANDLE)
  : list syscall -> syscall -> answer :=
  fun _ c =>
    match c with
    | CreateNamedPipeW n _ _ _ _ _ _ =>
        if wstring_eqb n held
        then {| ans_ret := INVALID_HANDLE_VALUE; ans_out := None;
                ans_err := Some ERROR_ACCESS_DENIED |}
        else succeeds h None
    | CreateFileW n _ _ _ _ =>
        if wstring_eqb n held then succeeds h None
        else {| ans_ret := INVALID_HANDLE_VALUE; ans_out := None;
                ans_err := Some ERROR_FILE_NOT_FOUND |}
    | _ => succeeds 1 None
    end.

(** A UTF-8 to UTF-16 converter to run the constructors with. *)
Definition utf16_units (cp : N) : list N :=
  if cp <? 65536 then [cp]
  else [55296 + (cp - 65536) / 1024; 56320 + (cp - 65536) mod 1024].

Definition continuation (b : N) : bool := (128 <=? b) && (b <? 192).

Definition scalar (lo cp : N) : bool :=
  (lo <=? cp) && (cp <=? 1114111) && negb ((55296 <=? cp) && (cp <=? 57343)).

Fixpoint utf8_decode (fuel : nat) (bs : list N) : option wstring :=
  match fuel, bs with
  | _, [] => Some []
  | O, _ :: _ => None
  | S fuel', b0 :: r0 =>
      if b0 <? 128 then option_map (cons b0) (utf8_decode fuel' r0)
      else if (192 <=? b0) && (b0 <? 224) then
        match r0 with
        | b1 :: r1 =>
            let cp := (b0 - 192) * 64 + (b1 - 128) in
            if continuation b1 && scalar 128 cp
            then option_map (app (utf16_units cp)) (utf8_decode fuel' r1)
            else None
        | _ => None
        end
      else if (224 <=? b0) && (b0 <? 240) then
        match r0 with
        | b1 :: b2 :: r2 =>
            let cp := (b0 - 224) * 4096 + (b1 - 128) * 64 + (b2 - 128) in
            if continuation b1 && continuation b2 && scalar 2048 cp
            then option_map (app (utf16_units cp)) (utf8_decode fuel' r2)
            else None
        | _ => None
        end
      else if (240 <=? b0) && (b0 <? 248) then
        match r0 with
        | b1 :: b2 :: b3 :: r3 =>
            let cp := (b0 - 240) * 262144 + (b1 - 128) * 4096
                      + (b2 - 128) * 64 + (b3 - 128) in
            if continuation b1 && continuation b2 && continuation b3
               && scalar 65536 cp
            then option_map (app (utf16_units cp)) (utf8_decode fuel' r3)
            else None
        | _ => None
        end
      else None
  end.

Definition utf8_utf16 (text : string) : option wstring :=
  utf8_decode (String.length text)
              (map N_of_ascii (list_ascii_of_string text)).

Definition initial_world : world := {| last_error := ERROR_SUCCESS; trace := [] |}.

(** A name of [n] letters. *)
Fixpoint letters (n : nat) : string :=
  match n with
  | O => EmptyString
  | S n' => String "a" (letters n')
  end.

(** The request as [read] and [write] hold it when they submit: the one
    passed in, rebound to the pipe's handle, or a fresh one. *)
Definition request_at_submission (this : named_pipe)
    (request : option async_request) : async_request :=
  {| ar_handle := handle this;
     ar_valid := match request with
                 | Some r => ar_valid r
                 | None => false
                 end |}.

(** The request methods invoked before the submission. *)
Definition before_submission (this : named_pipe)
    (request : option async_request) : list event :=
  (match request with
   | None => [Req (m_construct (handle this))]
   | Some _ => []
   end ++ [Req (m_set_handle (handle this)); Req m_get_overlapped_pointer])%list.

(** The four conditions under which [validate_create_param] throws. *)
Definition rejected_create_arguments (name : string) (max_instances : size_t) : Prop :=
  length name = 0
  \/ MAX_PATH_MINUS_PREFIX <= length name
  \/ max_instances = 0
  \/ PIPE_UNLIMITED_INSTANCES < max_instances.

(** The wide form of [\\.\pipe\demo]. *)
Definition wide_pipe_demo : wstring :=
  [92; 92; 46; 92; 112; 105; 112; 101; 92; 100; 101; 109; 111].

(** ** The native calls of the constructors, named *)

(** [pipe_open_mode] as [create_logic] computes it. *)
Definition create_open_mode (is_unique : bool) : DWORD :=
  let pipe_open_mode :=
    N.lor (N.lor PIPE_ACCESS_DUPLEX FILE_FLAG_WRITE_THROUGH) FILE_FLAG_OVERLAPPED in
  if is_unique then N.lor pipe_open_mode FILE_FLAG_FIRST_PIPE_INSTANCE
  else pipe_open_mode.

(** [pipe_type | pipe_read_mode | PIPE_WAIT] as [create_logic] computes it. *)
Definition create_pipe_mode (type : pipe_type.t) (mode : pipe_read_mode.t) : DWORD :=
  N.lor (N.lor match type with
               | pipe_type.Message => PIPE_TYPE_MESSAGE
               | _ => PIPE_TYPE_BYTE
               end
               match mode with
               | pipe_read_mode.Message => PIPE_READMODE_MESSAGE
               | _ => PIPE_READMODE_BYTE
               end)
        PIPE_WAIT.

(** The call [create_logic] makes for the wide name [name]. *)
Definition create_call (name : wstring) (max_instances : size_t)
    (type : pipe_type.t) (mode : pipe_read_mode.t) (is_unique : bool) : syscall :=
  CreateNamedPipeW (c_str name) (create_open_mode is_unique)
    (create_pipe_mode type mode) (to_DWORD max_instances)
    DEFAULT_BUFFER_SIZE DEFAULT_BUFFER_SIZE DEFAULT_WAIT_TIME.

(** The call [open_logic] makes for the wide name [name]. *)
Definition open_call (name : wstring) : syscall :=
  CreateFileW (c_str name) (N.lor GENERIC_READ GENERIC_WRITE) 0
    OPEN_EXISTING FILE_FLAG_OVERLAPPED.

Definition is_CreateFileW (c : syscall) : bool :=
  match c with
  | CreateFileW _ _ _ _ _ => true
  | _ => false
  end.

(** The messages of the two runtime errors. *)
Definition creating_failed (code : DWORD) : exception :=
  runtime_error ("Creating Named Pipe failed with error code " ++ sprintf_lX code ++ ".").

Definition opening_failed (code : DWORD) : exception :=
  runtime_error ("Opening Named Pipe failed with error code " ++ sprintf_lX code ++ ".").

(** The text every constructor converts: the name with its terminator,
    normalised. *)
Definition converted_text (name : string) : string :=
  make_windows_compatible (name ++ String NUL "").

(** The three constructors, with the arguments each takes besides the name. *)
Inductive construction :=
| by_create_only (max_instances : size_t) (type : pipe_type.t)
                 (mode : pipe_read_mode.t) (is_unique : bool)
| by_create_or_open (junk : bool) (max_instances : size_t) (type : pipe_type.t)
                    (mode : pipe_read_mode.t) (is_unique : bool)
| by_open_only (mode : pipe_read_mode.t).

Definition construct (os : list syscall -> syscall -> answer)
    (from_bytes : string -> option wstring) (how : construction) (name : string)
  : M named_pipe :=
  match how with
  | by_create_only max_instances type mode is_unique =>
      create_only os from_bytes name max_instances type mode is_unique
  | by_create_or_open junk max_instances type mode is_unique =>
      create_or_open os from_bytes junk name max_instances type mode is_unique
  | by_open_only mode => open_only os from_bytes name mode
  end.

(** The code units of a 7-bit text: one unit per character, of the same
    value. *)
Definition units (text : string) : wstring :=
  map N_of_ascii (list_ascii_of_string text).

(** The part of a name before its first NUL character. *)
Fixpoint before_NUL (s : string) : string :=
  match s with
  | EmptyString => EmptyString
  | String c rest => if Ascii.eqb c NUL then EmptyString else String c (before_NUL rest)
  end.

(** * Properties *)

(** ** The log *)

Lemma syscalls_app (a b : list event) :
  syscalls (a ++ b) = (syscalls a ++ syscalls b)%list.
Proof.
  induction a as [|[c|m] a IH]; cbn; [reflexivity | now rewrite IH | exact IH].
Qed.

Lemma syscalls_requests_only (t : list event) (this : named_pipe)
    (request : option async_request) :
  syscalls (t ++ before_submission this request) = syscalls t.
Proof.
  rewrite syscalls_app. destruct request; cbn; now rewrite app_nil_r.
Qed.

Lemma new_events_extend (w : world) (e : DWORD) (evs : list event) :
  new_events w {| last_error := e; trace := (trace w ++ evs)%list |} = evs.
Proof.
  unfold new_events; cbn [trace].
  rewrite skipn_app, skipn_all, Nat.sub_diag. reflexivity.
Qed.

(** A native call that did not fail left the last error at ERROR_SUCCESS. *)
Lemma native_failed_false os w c :
  native_failed os w c = false -> native_status os w c = ERROR_SUCCESS.
Proof.
  unfold native_failed. intros H.
  apply orb_false_elim in H. destruct H as [_ Hst].
  now apply negb_false_iff, N.eqb_eq in Hst.
Qed.

(** ** Closed forms of the operations *)

Lemma transfer_closed_form os dir this request n w :
  transfer os dir this request n w =
    let c := transfer_call dir this n in
    let st := native_status os w c in
    let after evs :=
      {| last_error := st;
         trace := (trace w ++ before_submission this request ++ evs)%list |} in
    let submitted :=
      (Ret (error.Success, {| ar_handle := handle this; ar_valid := true |}),
       after [Sys c; Req (m_set_valid true)]) in
    if native_failed os w c then
      if st =? ERROR_MORE_DATA then
        (Ret (error.MoreData, request_at_submission this request), after [Sys c])
      else if st =? ERROR_BROKEN_PIPE then
        (Ret (error.Disconnected, request_at_submission this request), after [Sys c])
      else if negb (st =? ERROR_IO_PENDING) then
        (Ret (error.Error, {| ar_handle := handle this; ar_valid := false |}),
         after [Sys c; Req m_cancel])
      else submitted
    else submitted.
Proof.
  pose proof (syscalls_requests_only (trace w) this request) as Hsys.
  unfold native_failed, native_status.
  destruct dir, request as [r|];
    cbv beta iota zeta delta
      [transfer read write transfer_call bind ret make_async_request set_handle
       get_overlapped_pointer log SetLastError GetLastError native cancel
       set_valid request_at_submission] in *;
    unfold before_submission in *; cbn [app trace last_error ar_handle ar_valid] in *;
    repeat rewrite <- app_assoc; cbn [app];
    rewrite Hsys.
  all: match goal with
       | |- context [ans_err ?a] => destruct a as [rv out [e|]]
       end; cbn [ans_ret ans_err ans_out last_error trace].
  all: repeat match goal with
       | |- context [if ?b then _ else _] =>
           destruct b eqn:?; cbn [negb orb last_error trace] in *
       end;
       try discriminate; repeat rewrite <- app_assoc; reflexivity.
Qed.

Lemma peek_closed_form os which this avail w :
  peek os which this avail w =
    let c := probe_call which this in
    let st := native_status os w c in
    let after := {| last_error := st; trace := (trace w ++ [Sys c])%list |} in
    if native_failed os w c then
      if st =? ERROR_BROKEN_PIPE then (Ret (Returns error.Disconnected, avail), after)
      else (Ret (Returns error.Error, avail), after)
    else
      (Ret (FallsOff,
            match ans_out (os (syscalls (trace w)) c) with
            | Some b => to_DWORD b
            | None => 0
            end), after).
Proof.
  unfold native_failed, native_status.
  destruct which;
    cbv beta iota zeta delta
      [peek available total_available probe_call bind ret SetLastError
       GetLastError native];
    cbn [trace last_error].
  all: match goal with
       | |- context [ans_err ?a] => destruct a as [rv out [e|]]
       end; cbn [ans_ret ans_err ans_out last_error trace].
  all: repeat match goal with
       | |- context [if ?b then _ else _] =>
           destruct b eqn:?; cbn [negb orb last_error trace] in *
       end; try discriminate; reflexivity.
Qed.

(** ** Validation *)

Lemma validate_create_param_throws name max_instances w :
  rejected_create_arguments name max_instances ->
  exists what,
    validate_create_param name max_instances w = (Throw (invalid_argument what), w).
Proof.
  unfold rejected_create_arguments, validate_create_param, throw.
  intros H.
  destruct (length name =? 0) eqn:E1; [eauto|].
  destruct (MAX_PATH_MINUS_PREFIX <=? length name) eqn:E2; [eauto|].
  destruct (max_instances =? 0) eqn:E3; [eauto|].
  destruct (PIPE_UNLIMITED_INSTANCES <? max_instances) eqn:E4; [eauto|].
  apply N.eqb_neq in E1, E3. apply N.leb_gt in E2. apply N.ltb_ge in E4.
  exfalso. destruct H as [H|[H|[H|H]]]; lia.
Qed.

Lemma validate_create_param_passes name max_instances w :
  ~ rejected_create_arguments name max_instances ->
  validate_create_param name max_instances w = (Ret tt, w).
Proof.
  unfold rejected_create_arguments, validate_create_param, ret.
  intros H.
  destruct (length name =? 0) eqn:E1;
    [apply N.eqb_eq in E1; tauto|].
  destruct (MAX_PATH_MINUS_PREFIX <=? length name) eqn:E2;
    [apply N.leb_le in E2; tauto|].
  destruct (max_instances =? 0) eqn:E3;
    [apply N.eqb_eq in E3; tauto|].
  destruct (PIPE_UNLIMITED_INSTANCES <? max_instances) eqn:E4;
    [apply N.ltb_lt in E4; tauto|].
  reflexivity.
Qed.

Lemma rejected_create_arguments_dec name max_instances :
  rejected_create_arguments name max_instances
  \/ ~ rejected_create_arguments name max_instances.
Proof.
  unfold rejected_create_arguments.
  destruct (N.eq_dec (length name) 0); [tauto|].
  destruct (N.le_gt_cases MAX_PATH_MINUS_PREFIX (length name)); [tauto|].
  destruct (N.eq_dec max_instances 0); [tauto|].
  destruct (N.le_gt_cases max_instances PIPE_UNLIMITED_INSTANCES); [|tauto].
  right. intros [H'|[H'|[H'|H']]]; lia.
Qed.

(** Past validation, a constructor ends with a pipe, a conversion error or
    a runtime error; never with an argument error. *)
Lemma create_logic_no_argument_error os name max_instances type mode is_unique w what :
  fst (create_logic os name max_instances type mode is_unique w)
  <> Throw (invalid_argument what).
Proof.
  cbv beta iota zeta delta
    [create_logic bind ret throw SetLastError GetLastError native].
  cbn [trace last_error].
  repeat match goal with
         | |- context [if ?b then _ else _] => destruct b
         end; cbn [fst]; discriminate.
Qed.

Lemma open_logic_no_argument_error os name mode w what :
  fst (open_logic os name mode w) <> Throw (invalid_argument what).
Proof.
  cbv beta iota zeta delta
    [open_logic bind ret throw SetLastError GetLastError native].
  cbn [trace last_error].
  repeat match goal with
         | |- context [if ?b then _ else _] => destruct b
         end; cbn [fst]; discriminate.
Qed.

(** ** Construction *)

(** Whatever makes [create_only] throw makes [create_or_open] throw the
    same exception in the same world: a failed creation leaves
    [create_logic] by its [throw], so the branch that would open the
    existing pipe is not reached. *)
Lemma create_or_open_rethrows os from_bytes junk name max_instances type mode
    is_unique w e w' :
  create_only os from_bytes name max_instances type mode is_unique w = (Throw e, w') ->
  create_or_open os from_bytes junk name max_instances type mode is_unique w
  = (Throw e, w').
Proof.
  unfold create_only, create_or_open, bind.
  destruct (validate_create_param name max_instances w) as [[[]|e0|] w0];
    [|easy|easy].
  destruct (make_wide_string from_bytes _ w0) as [[wide|e1|] w1]; [|easy|easy].
  destruct (create_logic os wide max_instances type mode is_unique w1)
    as [[[h created]|e2|] w2]; [|easy|easy].
  unfold ret. discriminate.
Qed.

(** C1 (the code departs from the claim).  Another process holds the only
    instance of the pipe [demo].  [CreateOnly] fails with a runtime error
    that carries the native status 5, as claimed.  [CreateOrOpen] with the
    same arguments does not succeed: it throws the same error after the
    single [CreateNamedPipeW] call, without ever calling [CreateFileW],
    although the API would have answered the opening of that name with the
    handle. *)
Theorem create_or_open_does_not_fall_back :
  let api := os_name_held wide_pipe_demo 420 in
  let refused :=
    (@Throw named_pipe
       (runtime_error "Creating Named Pipe failed with error code 5."),
     {| last_error := ERROR_ACCESS_DENIED;
        trace := [Sys (CreateNamedPipeW wide_pipe_demo
                         (N.lor (N.lor (N.lor PIPE_ACCESS_DUPLEX FILE_FLAG_WRITE_THROUGH)
                                       FILE_FLAG_OVERLAPPED)
                                FILE_FLAG_FIRST_PIPE_INSTANCE)
                         (N.lor (N.lor PIPE_TYPE_MESSAGE PIPE_READMODE_MESSAGE) PIPE_WAIT)
                         1 DEFAULT_BUFFER_SIZE DEFAULT_BUFFER_SIZE DEFAULT_WAIT_TIME)] |}) in
  create_only api utf8_utf16 "demo" 1 pipe_type.Message pipe_read_mode.Message true
    initial_world = refused
  /\ (forall junk,
        create_or_open api utf8_utf16 junk "demo" 1 pipe_type.Message
          pipe_read_mode.Message true initial_world = refused)
  /\ api (syscalls (trace (snd refused)))
         (CreateFileW wide_pipe_demo (N.lor GENERIC_READ GENERIC_WRITE) 0
            OPEN_EXISTING FILE_FLAG_OVERLAPPED)
     = succeeds 420 None.
Proof.
  cbv zeta.
  assert (Hc : create_only (os_name_held wide_pipe_demo 420) utf8_utf16 "demo" 1
                 pipe_type.Message pipe_read_mode.Message true initial_world
               = (Throw (runtime_error "Creating Named Pipe failed with error code 5."),
                  {| last_error := ERROR_ACCESS_DENIED;
                     trace := [Sys (CreateNamedPipeW wide_pipe_demo
                         (N.lor (N.lor (N.lor PIPE_ACCESS_DUPLEX FILE_FLAG_WRITE_THROUGH)
                                       FILE_FLAG_OVERLAPPED)
                                FILE_FLAG_FIRST_PIPE_INSTANCE)
                         (N.lor (N.lor PIPE_TYPE_MESSAGE PIPE_READMODE_MESSAGE) PIPE_WAIT)
                         1 DEFAULT_BUFFER_SIZE DEFAULT_BUFFER_SIZE DEFAULT_WAIT_TIME)] |}))
    by (vm_compute; reflexivity).
  split; [exact Hc|]. split.
  - intros junk. now apply create_or_open_rethrows.
  - vm_compute; reflexivity.
Qed.

(** ** Overlapped read and write *)

(** C2, as the code has it.  When the submission of a read or a write
    reports more-data, the call returns [MoreData] straight away, before
    [set_valid(true)] is reached: the request comes back as it was when the
    operation was submitted, its validity flag as on entry (not valid for
    a request the call created), and [set_valid] is not invoked. *)
Theorem more_data_returns_before_set_valid os dir this request n w :
  native_status os w (transfer_call dir this n) = ERROR_MORE_DATA ->
  exists w',
    transfer os dir this request n w
    = (Ret (error.MoreData, request_at_submission this request), w')
    /\ ar_valid (request_at_submission this request)
       = match request with Some r => ar_valid r | None => false end
    /\ forall valid, ~ In (Req (m_set_valid valid)) (new_events w w').
Proof.
  intros Hst.
  rewrite transfer_closed_form. cbv zeta.
  unfold native_failed. rewrite Hst.
  replace (negb (ERROR_MORE_DATA =? ERROR_SUCCESS)) with true by reflexivity.
  rewrite orb_true_r, N.eqb_refl.
  eexists. split; [reflexivity|]. split; [reflexivity|].
  intros valid. rewrite new_events_extend.
  rewrite in_app_iff. unfold before_submission.
  destruct request; cbn; intuition discriminate.
Qed.

(** C3.  When the submission of a read or a write fails with a status
    other than more-data, broken-pipe and queued-pending, the call invokes
    [cancel] on the request after the submission and returns [Error];
    [set_valid] is not invoked and the request is not valid on return. *)
Theorem other_failures_cancel_request os dir this request n w :
  native_failed os w (transfer_call dir this n) = true ->
  native_status os w (transfer_call dir this n) <> ERROR_MORE_DATA ->
  native_status os w (transfer_call dir this n) <> ERROR_BROKEN_PIPE ->
  native_status os w (transfer_call dir this n) <> ERROR_IO_PENDING ->
  exists r w',
    transfer os dir this request n w = (Ret (error.Error, r), w')
    /\ new_events w w'
       = (before_submission this request
          ++ [Sys (transfer_call dir this n); Req m_cancel])%list
    /\ (forall valid, ~ In (Req (m_set_valid valid)) (new_events w w'))
    /\ ar_valid r = false.
Proof.
  intros Hfail Hmore Hbroken Hpending.
  rewrite transfer_closed_form. cbv zeta. rewrite Hfail.
  apply N.eqb_neq in Hmore, Hbroken, Hpending.
  rewrite Hmore, Hbroken, Hpending. cbn [negb].
  do 2 eexists. split; [reflexivity|].
  rewrite new_events_extend. split; [reflexivity|]. split; [|reflexivity].
  intros valid. rewrite in_app_iff. unfold before_submission.
  destruct request; cbn; intuition discriminate.
Qed.

(** C4.  For each of [available], [total_available], [read] and [write],
    the outcome is decided by the status of the operation's own native
    call, which is made exactly once.  The outcome is [Disconnected]
    exactly when that call leaves the broken-pipe status, so a broken pipe
    never yields [Error]; the outcome is [Error] exactly when the call
    failed with a status other than broken-pipe (and, for [read] and
    [write], other than more-data and queued-pending), so no other failure
    yields [Disconnected].  The two outcomes are never given one for the
    other. *)
Theorem broken_pipe_is_disconnected os op this w :
  (outcome os op this w = Ret (Returns error.Disconnected)
   <-> native_status os w (operation_call op this) = ERROR_BROKEN_PIPE)
  /\ (outcome os op this w = Ret (Returns error.Error)
      <-> native_failed os w (operation_call op this) = true
          /\ native_status os w (operation_call op this) <> ERROR_BROKEN_PIPE
          /\ match op with
             | op_read _ _ | op_write _ _ =>
                 native_status os w (operation_call op this) <> ERROR_MORE_DATA
                 /\ native_status os w (operation_call op this) <> ERROR_IO_PENDING
             | op_available _ | op_total_available _ => True
             end)
  /\ syscalls (new_events w (outcome_world os op this w)) = [operation_call op this].
Proof.
  assert (Hpeek : forall which avail,
             let c := probe_call which this in
             let run := peek os which this avail w in
             (match fst run with
              | Ret (r, _) => Ret r
              | Throw e => Throw e
              | Undefined => Undefined
              end = Ret (Returns error.Disconnected)
              <-> native_status os w c = ERROR_BROKEN_PIPE)
             /\ (match fst run with
                 | Ret (r, _) => Ret r
                 | Throw e => Throw e
                 | Undefined => Undefined
                 end = Ret (Returns error.Error)
                 <-> native_failed os w c = true
                     /\ native_status os w c <> ERROR_BROKEN_PIPE /\ True)
             /\ syscalls (new_events w (snd run)) = [c]).
  { intros which avail. cbv zeta. rewrite peek_closed_form. cbv zeta.
    destruct (native_failed os w (probe_call which this)) eqn:Hf.
    - destruct (native_status os w _ =? ERROR_BROKEN_PIPE) eqn:E;
        cbn [fst snd]; rewrite new_events_extend.
      + apply N.eqb_eq in E.
        split; [tauto|]. split; [|reflexivity].
        split; [discriminate | intros [_ [H _]]; now elim H].
      + apply N.eqb_neq in E.
        split; [split; [discriminate | intros H; now elim E]|].
        split; [tauto | reflexivity].
    - cbn [fst snd]. rewrite new_events_extend.
      apply native_failed_false in Hf.
      split; [split; [discriminate | intros H; rewrite Hf in H; discriminate]|].
      split; [|reflexivity].
      split; [discriminate | intros [H _]; discriminate]. }
  assert (Htransfer : forall dir request n,
             let c := transfer_call dir this n in
             let run := transfer os dir this request n w in
             (match fst run with
              | Ret (r, _) => Ret (Returns r)
              | Throw e => Throw e
              | Undefined => Undefined
              end = Ret (Returns error.Disconnected)
              <-> native_status os w c = ERROR_BROKEN_PIPE)
             /\ (match fst run with
                 | Ret (r, _) => Ret (Returns r)
                 | Throw e => Throw e
                 | Undefined => Undefined
                 end = Ret (Returns error.Error)
                 <-> native_failed os w c = true
                     /\ native_status os w c <> ERROR_BROKEN_PIPE
                     /\ native_status os w c <> ERROR_MORE_DATA
                     /\ native_status os w c <> ERROR_IO_PENDING)
             /\ syscalls (new_events w (snd run)) = [c]).
  { intros dir request n. cbv zeta. rewrite transfer_closed_form. cbv zeta.
    assert (Hsys : forall evs,
               syscalls (before_submission this request ++ evs) = syscalls evs).
    { intros evs. rewrite syscalls_app.
      unfold before_submission. destruct request; reflexivity. }
    destruct (native_failed os w (transfer_call dir this n)) eqn:Hf.
    - destruct (native_status os w _ =? ERROR_MORE_DATA) eqn:E1.
      { apply N.eqb_eq in E1. cbn [fst snd]. rewrite new_events_extend, Hsys.
        split; [split; [discriminate | intros H; rewrite E1 in H; discriminate]|].
        split; [|reflexivity].
        split; [discriminate | intros [_ [_ [H _]]]; now elim H]. }
      apply N.eqb_neq in E1.
      destruct (native_status os w _ =? ERROR_BROKEN_PIPE) eqn:E2.
      { apply N.eqb_eq in E2. cbn [fst snd]. rewrite new_events_extend, Hsys.
        split; [tauto|]. split; [|reflexivity].
        split; [discriminate | intros [_ [H _]]; now elim H]. }
      apply N.eqb_neq in E2.
      destruct (native_status os w _ =? ERROR_IO_PENDING) eqn:E3; cbn [negb].
      + apply N.eqb_eq in E3. cbn [fst snd]. rewrite new_events_extend, Hsys.
        split; [split; [discriminate | intros H; now elim E2]|].
        split; [|reflexivity].
        split; [discriminate | intros [_ [_ [_ H]]]; now elim H].
      + apply N.eqb_neq in E3. cbn [fst snd]. rewrite new_events_extend, Hsys.
        split; [split; [discriminate | intros H; now elim E2]|].
        split; [tauto | reflexivity].
    - cbn [fst snd]. rewrite new_events_extend, Hsys.
      apply native_failed_false in Hf.
      split; [split; [discriminate | intros H; rewrite Hf in H; discriminate]|].
      split; [|reflexivity].
      split; [discriminate | intros [H _]; discriminate]. }
  destruct op as [avail|avail|request n|request n].
  - exact (Hpeek Available avail).
  - exact (Hpeek TotalAvailable avail).
  - exact (Htransfer Reading request n).
  - exact (Htransfer Writing request n).
Qed.

(** The argument errors of the creating constructors, by the tests the
    validator makes: [CreateOnly] and [CreateOrOpen] end with an argument
    error exactly when the name is empty, its length reaches
    [MAX_PATH_MINUS_PREFIX], [max_instances] is zero, or [max_instances] is
    above [PIPE_UNLIMITED_INSTANCES]; on those inputs the world is left as
    it was: no native call is logged and the last-error value is
    untouched. *)
Lemma creating_constructors_argument_errors os from_bytes junk name
    max_instances type mode is_unique w :
  ((exists what,
       fst (create_only os from_bytes name max_instances type mode is_unique w)
       = Throw (invalid_argument what))
   <-> rejected_create_arguments name max_instances)
  /\ ((exists what,
         fst (create_or_open os from_bytes junk name max_instances type mode
                is_unique w)
         = Throw (invalid_argument what))
      <-> rejected_create_arguments name max_instances)
  /\ (rejected_create_arguments name max_instances ->
      snd (create_only os from_bytes name max_instances type mode is_unique w) = w
      /\ snd (create_or_open os from_bytes junk name max_instances type mode
                is_unique w) = w).
Proof.
  destruct (rejected_create_arguments_dec name max_instances) as [Hbad|Hok].
  - destruct (validate_create_param_throws name max_instances w Hbad) as [what Hv].
    unfold create_only, create_or_open, bind. rewrite Hv. cbn [fst snd].
    repeat split; eauto.
  - pose proof (validate_create_param_passes name max_instances w Hok) as Hv.
    assert (Hnot : forall what,
               fst (create_only os from_bytes name max_instances type mode is_unique w)
               <> Throw (invalid_argument what)
               /\ fst (create_or_open os from_bytes junk name max_instances type
                         mode is_unique w)
                  <> Throw (invalid_argument what)).
    { intros what.
      unfold create_only, create_or_open, bind. rewrite Hv.
      unfold make_wide_string.
      destruct (from_bytes _) as [wide|]; [|split; discriminate].
      unfold ret at 1 3.
      pose proof (create_logic_no_argument_error os wide max_instances type mode
                    is_unique w what) as Hc.
      destruct (create_logic os wide max_instances type mode is_unique w)
        as [[[h created]|e|] w1]; cbn [fst] in *.
      - split; [discriminate|].
        destruct (negb (read_retval junk created)); [|discriminate].
        pose proof (open_logic_no_argument_error os wide mode w1 what) as Ho.
        destruct (open_logic os wide mode w1) as [[[h' r]|e'|] w2];
          cbn [fst] in *; [discriminate| |discriminate].
        intros Hx; apply Ho; now inversion Hx.
      - split; intros Hx; apply Hc; now inversion Hx.
      - split; discriminate. }
    repeat split; try tauto; intros [what H]; exfalso;
      destruct (Hnot what) as [H1 H2]; auto.
Qed.

(** C5 (the code departs from the claim).  A name of [MAX_PATH - 9] = 251
    characters does not exceed the length budget, and a [max_instances] of
    1 is neither zero nor above the unlimited sentinel: none of the four
    conditions of the claim holds.  [CreateOnly] and [CreateOrOpen] raise
    an argument error all the same, whatever the API, the converter and
    the other arguments are; as the claim says of its failing inputs, they
    do so before any native call, leaving the world as it was. *)
Theorem argument_error_within_length_budget os from_bytes junk type mode
    is_unique w :
  length (letters 251) = MAX_PATH - 9
  /\ ~ (length (letters 251) = 0
        \/ MAX_PATH - 9 < length (letters 251)
        \/ 1 = 0
        \/ PIPE_UNLIMITED_INSTANCES < 1)
  /\ create_only os from_bytes (letters 251) 1 type mode is_unique w
     = (Throw (invalid_argument "'name' can't be longer than (260 - 9) characters."),
        w)
  /\ create_or_open os from_bytes junk (letters 251) 1 type mode is_unique w
     = (Throw (invalid_argument "'name' can't be longer than (260 - 9) characters."),
        w).
Proof.
  assert (Hlen : length (letters 251) = MAX_PATH - 9) by (vm_compute; reflexivity).
  assert (Hv : validate_create_param (letters 251) 1 w
               = (Throw (invalid_argument
                           "'name' can't be longer than (260 - 9) characters."), w))
    by (vm_compute; reflexivity).
  split; [exact Hlen|]. split.
  { rewrite Hlen. unfold MAX_PATH, PIPE_UNLIMITED_INSTANCES. lia. }
  unfold create_only, create_or_open, bind. rewrite Hv. split; reflexivity.
Qed.

(** ** Name normalisation *)

Lemma map_string_append f (a b : string) :
  map_string f (a ++ b) = map_string f a ++ map_string f b.
Proof.
  induction a as [|c a IH]; cbn; [reflexivity | now rewrite IH].
Qed.

Lemma map_string_idempotent f (s : string) :
  (forall c, f (f c) = f c) ->
  map_string f (map_string f s) = map_string f s.
Proof.
  intros Hf. induction s as [|c s IH]; cbn [map_string]; [reflexivity|].
  now rewrite Hf, IH.
Qed.

Lemma length_map_string f (s : string) :
  String.length (map_string f s) = String.length s.
Proof.
  induction s as [|c s IH]; cbn [map_string String.length];
    [reflexivity | now rewrite IH].
Qed.

Lemma forward_slashes_idempotent (name : string) :
  forward_slashes (forward_slashes name) = forward_slashes name.
Proof.
  apply map_string_idempotent. intros c.
  destruct (Ascii.eqb c backslash) eqn:E; [reflexivity | now rewrite E].
Qed.

Lemma length_forward_slashes (name : string) :
  String.length (forward_slashes name) = String.length name.
Proof.
  apply length_map_string.
Qed.

Lemma length_append (a b : string) :
  String.length (a ++ b) = (String.length a + String.length b)%nat.
Proof.
  induction a as [|c a IH]; cbn; [reflexivity | now rewrite IH].
Qed.

Lemma length_make_windows_compatible (name : string) :
  String.length (make_windows_compatible name) = (9 + String.length name)%nat.
Proof.
  unfold make_windows_compatible. cbv zeta.
  rewrite length_append, length_forward_slashes. reflexivity.
Qed.

(** C6, as the code has it.  Replacing the backslashes is idempotent, but
    the normalisation as a whole is not: applied to a normalised name it
    turns the backslashes of the prefix into forward slashes and prepends
    the prefix once more, so the result is nine characters longer and
    differs from the normalised name. *)
Theorem normalization_prefixes_again (name : string) :
  forward_slashes (forward_slashes name) = forward_slashes name
  /\ make_windows_compatible (make_windows_compatible name)
     = pipe_prefix ++ forward_slashes pipe_prefix ++ forward_slashes name
  /\ String.length (make_windows_compatible (make_windows_compatible name))
     = (String.length (make_windows_compatible name) + 9)%nat
  /\ make_windows_compatible (make_windows_compatible name)
     <> make_windows_compatible name.
Proof.
  split; [apply forward_slashes_idempotent|].
  split.
  { unfold make_windows_compatible at 1 2. cbv zeta.
    unfold forward_slashes at 1. rewrite map_string_append.
    fold (forward_slashes pipe_prefix).
    fold (forward_slashes (forward_slashes name)).
    now rewrite forward_slashes_idempotent. }
  assert (Hlen : String.length (make_windows_compatible (make_windows_compatible name))
                 = (String.length (make_windows_compatible name) + 9)%nat).
  { rewrite !length_make_windows_compatible. lia. }
  split; [exact Hlen|].
  intros Heq. rewrite Heq in Hlen. lia.
Qed.

(** ** Name validation *)

Lemma validate_open_param_bounds name w :
  validate_open_param name w = (Ret tt, w)
  <-> 1 <= length name /\ length name < MAX_PATH_MINUS_PREFIX.
Proof.
  unfold validate_open_param, ret, throw.
  destruct (length name =? 0) eqn:E1.
  - apply N.eqb_eq in E1. split; [discriminate | lia].
  - apply N.eqb_neq in E1.
    destruct (MAX_PATH_MINUS_PREFIX <=? length name) eqn:E2.
    + apply N.leb_le in E2. split; [discriminate | lia].
    + apply N.leb_gt in E2. split; [lia | reflexivity].
Qed.

(** C7 (the code departs from the claim).  A name of exactly
    [MAX_PATH - 9] = 251 characters is within the claimed range, and is not
    longer than the limit the error message names; the validators of all
    three constructors reject it all the same. *)
Theorem name_of_maximal_length_is_rejected :
  length (letters 251) = MAX_PATH - 9
  /\ validate_open_param (letters 251) initial_world
     = (Throw (invalid_argument "'name' can't be longer than (260 - 9) characters."),
        initial_world)
  /\ validate_create_param (letters 251) 1 initial_world
     = (Throw (invalid_argument "'name' can't be longer than (260 - 9) characters."),
        initial_world)
  /\ validate_open_param (letters 250) initial_world = (Ret tt, initial_world)
  /\ validate_create_param (letters 250) 1 initial_world = (Ret tt, initial_world).
Proof.
  repeat split; vm_compute; reflexivity.
Qed.

(** ** Availability probes *)

(** A successful peek stores the counter in [avail] and then leaves the
    function without a [return]. *)
Lemma peek_success_stores_count os which this avail w :
  native_failed os w (probe_call which this) = false ->
  exists w',
    peek os which this avail w
    = (Ret (FallsOff,
            match ans_out (os (syscalls (trace w)) (probe_call which this)) with
            | Some b => to_DWORD b
            | None => 0
            end), w').
Proof.
  intros Hok. rewrite peek_closed_form. cbv zeta. rewrite Hok.
  eexists. reflexivity.
Qed.

(** C8 (the code departs from the claim).  On a freshly connected endpoint
    with an empty buffer the native peek succeeds with count 0.  Both
    [available] and [total_available] store 0 in [avail], which held 77,
    but neither returns [Success]: control reaches the end of the function
    and no outcome is returned. *)
Theorem successful_peek_returns_no_outcome (which : probe) :
  peek (os_always (succeeds 1 (Some 0))) which {| handle := 420 |} 77 initial_world
  = (Ret (FallsOff, 0),
     {| last_error := ERROR_SUCCESS;
        trace := [Sys (probe_call which {| handle := 420 |})] |})
  /\ fst (peek (os_always (succeeds 1 (Some 0))) which {| handle := 420 |} 77
            initial_world)
     <> Ret (Returns error.Success, 0).
Proof.
  destruct which; split; vm_compute; (reflexivity || discriminate).
Qed.

(** C10.  When [available] or [total_available] returns [Disconnected] or
    [Error], the value of [avail] on exit is its value on entry. *)
Theorem failed_peek_leaves_avail os which this avail w out avail' w' :
  peek os which this avail w = (Ret (Returns out, avail'), w') ->
  out = error.Disconnected \/ out = error.Error ->
  avail' = avail.
Proof.
  rewrite peek_closed_form. cbv zeta.
  intros Hrun _.
  destruct (native_failed os w (probe_call which this));
    [destruct (native_status os w (probe_call which this) =? ERROR_BROKEN_PIPE)|];
    inversion Hrun; reflexivity.
Qed.

(** ** Destruction *)

(** C9.  The destructor returns normally.  With a non-null handle it calls
    [DisconnectNamedPipe] and then [CloseHandle] on it, and nothing else;
    with a null handle it does nothing at all. *)
Theorem destroy_disconnects_then_closes os this w :
  fst (destroy os this w) = Ret tt
  /\ new_events w (snd (destroy os this w))
     = (if handle this =? 0 then []
        else [Sys (DisconnectNamedPipe (handle this));
              Sys (CloseHandle (handle this))])
  /\ (In (Sys (DisconnectNamedPipe (handle this)))
         (new_events w (snd (destroy os this w)))
      <-> handle this <> 0)
  /\ (In (Sys (CloseHandle (handle this)))
         (new_events w (snd (destroy os this w)))
      <-> handle this <> 0)
  /\ (handle this = 0 -> snd (destroy os this w) = w).
Proof.
  unfold destroy.
  destruct (handle this =? 0) eqn:E; cbn [negb].
  - apply N.eqb_eq in E. unfold ret; cbn [fst snd].
    unfold new_events. rewrite skipn_all.
    repeat split; try tauto; try contradiction.
    all: cbn [In]; tauto.
  - apply N.eqb_neq in E.
    cbv beta iota zeta delta [bind ret native]. cbn [fst snd trace last_error].
    rewrite <- app_assoc. cbn [app]. rewrite new_events_extend.
    repeat split; try tauto; try contradiction; intros _; cbn [In]; auto.
Qed.

(** * Runs on concrete inputs *)

(** C2, the claim as written fails: a read through an empty request pointer
    whose submission reports more-data returns [MoreData] with a request
    that is not valid. *)
Lemma more_data_request_not_valid :
  fst (read (os_always (fails_with ERROR_MORE_DATA)) {| handle := 420 |} None 16
         initial_world)
  = Ret (error.MoreData, {| ar_handle := 420; ar_valid := false |})
  /\ ~ (exists r,
          fst (read (os_always (fails_with ERROR_MORE_DATA)) {| handle := 420 |}
                 None 16 initial_world)
          = Ret (error.MoreData, r)
          /\ ar_valid r = true).
Proof.
  split; [vm_compute; reflexivity|].
  intros [r [Hrun Hvalid]]. vm_compute in Hrun.
  inversion Hrun; subst r. discriminate.
Qed.

Lemma more_data_returns_before_set_valid_witness :
  native_status (os_always (fails_with ERROR_MORE_DATA)) initial_world
    (transfer_call Reading {| handle := 420 |} 16) = ERROR_MORE_DATA
  /\ exists w',
       transfer (os_always (fails_with ERROR_MORE_DATA)) Reading {| handle := 420 |}
         None 16 initial_world
       = (Ret (error.MoreData, request_at_submission {| handle := 420 |} None), w')
       /\ ar_valid (request_at_submission {| handle := 420 |} None) = false
       /\ forall valid, ~ In (Req (m_set_valid valid)) (new_events initial_world w').
Proof.
  split; [reflexivity|].
  apply (more_data_returns_before_set_valid
           (os_always (fails_with ERROR_MORE_DATA)) Reading {| handle := 420 |}
           None 16 initial_world).
  reflexivity.
Defined.

Lemma other_failures_cancel_request_witness :
  native_failed (os_always (fails_with 6)) initial_world
    (transfer_call Writing {| handle := 420 |} 16) = true
  /\ exists r w',
       transfer (os_always (fails_with 6)) Writing {| handle := 420 |} None 16
         initial_world = (Ret (error.Error, r), w')
       /\ new_events initial_world w'
          = (before_submission {| handle := 420 |} None
             ++ [Sys (transfer_call Writing {| handle := 420 |} 16); Req m_cancel])%list
       /\ (forall valid, ~ In (Req (m_set_valid valid)) (new_events initial_world w'))
       /\ ar_valid r = false.
Proof.
  split; [reflexivity|].
  apply (other_failures_cancel_request
           (os_always (fails_with 6)) Writing {| handle := 420 |} None 16
           initial_world); vm_compute; (reflexivity || discriminate).
Defined.

Lemma failed_peek_leaves_avail_witness :
  peek (os_always (fails_with ERROR_ACCESS_DENIED)) TotalAvailable
    {| handle := 420 |} 77 initial_world
  = (Ret (Returns error.Error, 77),
     {| last_error := ERROR_ACCESS_DENIED;
        trace := [Sys (PeekNamedPipe 420 lpTotalBytesAvail)] |})
  /\ 77 = 77.
Proof.
  split; [vm_compute; reflexivity|].
  apply (failed_peek_leaves_avail
           (os_always (fails_with ERROR_ACCESS_DENIED)) TotalAvailable
           {| handle := 420 |} 77 initial_world error.Error 77
           {| last_error := ERROR_ACCESS_DENIED;
              trace := [Sys (PeekNamedPipe 420 lpTotalBytesAvail)] |}).
  - vm_compute; reflexivity.
  - right; reflexivity.
Defined.

(** C6, the claim as written fails: normalising the normalised name of
    [a] does not give it back. *)
Lemma normalization_not_idempotent :
  make_windows_compatible (make_windows_compatible "a")
  <> make_windows_compatible "a".
Proof.
  vm_compute. discriminate.
Qed.

(** * Further properties of the constructors *)


Lemma create_logic_closed_form os name max_instances type mode is_unique w :
  create_logic os name max_instances type mode is_unique w =
    let c := create_call name max_instances type mode is_unique in
    let after := {| last_error := native_status os w c;
                    trace := (trace w ++ [Sys c])%list |} in
    if native_failed os w c
    then (Throw (creating_failed (native_status os w c)), after)
    else (Undefined, after).
Proof.
  unfold native_failed, native_status, creating_failed.
  destruct is_unique, type, mode;
    cbv beta iota zeta delta
      [create_logic create_call create_open_mode create_pipe_mode bind ret throw
       undefined SetLastError GetLastError native];
    cbn [trace last_error];
  match goal with
  | |- context [ans_err ?a] => destruct a as [rv out [e|]]
  end; cbn [ans_ret ans_err ans_out last_error trace];
  repeat match goal with
         | |- context [if ?b then _ else _] =>
             destruct b eqn:?; cbn [negb orb last_error trace] in *
         end; try discriminate; reflexivity.
Qed.

Lemma open_logic_closed_form os name mode w :
  open_logic os name mode w =
    let c := open_call name in
    let after := {| last_error := native_status os w c;
                    trace := (trace w ++ [Sys c])%list |} in
    if native_failed os w c
    then (Throw (opening_failed (native_status os w c)), after)
    else (Undefined, after).
Proof.
  unfold native_failed, native_status, opening_failed, open_call.
  cbv beta iota zeta delta
    [open_logic bind ret throw undefined SetLastError GetLastError native].
  cbn [trace last_error].
  match goal with
  | |- context [ans_err ?a] => destruct a as [rv out [e|]]
  end; cbn [ans_ret ans_err ans_out last_error trace];
  repeat match goal with
         | |- context [if ?b then _ else _] =>
             destruct b eqn:?; cbn [negb orb last_error trace] in *
         end; try discriminate; reflexivity.
Qed.

Lemma validate_open_param_cases name w :
  (length name = 0 \/ MAX_PATH_MINUS_PREFIX <= length name) /\
  (exists what, validate_open_param name w = (Throw (invalid_argument what), w))
  \/ ~ (length name = 0 \/ MAX_PATH_MINUS_PREFIX <= length name) /\
     validate_open_param name w = (Ret tt, w).
Proof.
  unfold validate_open_param, ret, throw.
  destruct (length name =? 0) eqn:E1.
  - apply N.eqb_eq in E1. left; eauto.
  - apply N.eqb_neq in E1.
    destruct (MAX_PATH_MINUS_PREFIX <=? length name) eqn:E2.
    + apply N.leb_le in E2. left; eauto.
    + apply N.leb_gt in E2. right. split; [lia | reflexivity].
Qed.

Lemma validate_create_param_cases name max_instances w :
  rejected_create_arguments name max_instances /\
  (exists what,
      validate_create_param name max_instances w = (Throw (invalid_argument what), w))
  \/ ~ rejected_create_arguments name max_instances /\
     validate_create_param name max_instances w = (Ret tt, w).
Proof.
  destruct (rejected_create_arguments_dec name max_instances) as [H|H].
  - left. split; [exact H | now apply validate_create_param_throws].
  - right. split; [exact H | now apply validate_create_param_passes].
Qed.

(** The constructors past validation and conversion. *)
Lemma create_only_past_validation os from_bytes name max_instances type mode
    is_unique w wide :
  ~ rejected_create_arguments name max_instances ->
  from_bytes (converted_text name) = Some wide ->
  create_only os from_bytes name max_instances type mode is_unique w =
    let c := create_call wide max_instances type mode is_unique in
    (if native_failed os w c
     then Throw (creating_failed (native_status os w c))
     else Undefined,
     {| last_error := native_status os w c; trace := (trace w ++ [Sys c])%list |}).
Proof.
  intros Hok Hconv. unfold create_only, bind.
  rewrite (validate_create_param_passes name max_instances w Hok).
  unfold make_wide_string. fold (converted_text name). rewrite Hconv.
  unfold ret at 1. rewrite create_logic_closed_form. cbv zeta.
  destruct (native_failed os w _); reflexivity.
Qed.

Lemma open_only_past_validation os from_bytes name mode w wide :
  ~ (length name = 0 \/ MAX_PATH_MINUS_PREFIX <= length name) ->
  from_bytes (converted_text name) = Some wide ->
  open_only os from_bytes name mode w =
    let c := open_call wide in
    (if native_failed os w c
     then Throw (opening_failed (native_status os w c))
     else Undefined,
     {| last_error := native_status os w c; trace := (trace w ++ [Sys c])%list |}).
Proof.
  intros Hok Hconv. unfold open_only, bind.
  destruct (validate_open_param_cases name w) as [[Hbad _]|[_ Hv]]; [tauto|].
  rewrite Hv.
  unfold make_wide_string. fold (converted_text name). rewrite Hconv.
  unfold ret at 1. rewrite open_logic_closed_form. cbv zeta.
  destruct (native_failed os w _); reflexivity.
Qed.

Lemma create_or_open_past_validation os from_bytes junk name max_instances type
    mode is_unique w wide :
  ~ rejected_create_arguments name max_instances ->
  from_bytes (converted_text name) = Some wide ->
  create_or_open os from_bytes junk name max_instances type mode is_unique w =
    let c := create_call wide max_instances type mode is_unique in
    (if native_failed os w c
     then Throw (creating_failed (native_status os w c))
     else Undefined,
     {| last_error := native_status os w c; trace := (trace w ++ [Sys c])%list |}).
Proof.
  intros Hok Hconv. unfold create_or_open, bind.
  rewrite (validate_create_param_passes name max_instances w Hok).
  unfold make_wide_string. fold (converted_text name). rewrite Hconv.
  unfold ret at 1. rewrite create_logic_closed_form. cbv zeta.
  destruct (native_failed os w _); reflexivity.
Qed.

(** X1.  [OpenOnly] ends with an argument error exactly when the name is
    empty or its length reaches [MAX_PATH_MINUS_PREFIX]; nothing else is
    validated, and on those names the world is left as it was. *)
Theorem open_only_argument_errors os from_bytes name mode w :
  ((exists what,
       fst (open_only os from_bytes name mode w) = Throw (invalid_argument what))
   <-> length name = 0 \/ MAX_PATH_MINUS_PREFIX <= length name)
  /\ (length name = 0 \/ MAX_PATH_MINUS_PREFIX <= length name ->
      snd (open_only os from_bytes name mode w) = w).
Proof.
  destruct (validate_open_param_cases name w) as [[Hbad [what Hv]]|[Hok Hv]].
  - unfold open_only, bind. rewrite Hv. cbn [fst snd].
    repeat split; eauto.
  - split; [split; [|tauto] | tauto].
    intros [what H]. exfalso. revert H.
    unfold open_only, bind. rewrite Hv. unfold make_wide_string.
    destruct (from_bytes _) as [wide|]; [|discriminate].
    unfold ret at 1.
    pose proof (open_logic_no_argument_error os wide mode w what) as Ho.
    destruct (open_logic os wide mode w) as [[[h r]|e|] w1]; cbn [fst] in *;
      [discriminate| |discriminate].
    intros Hx; apply Ho; now inversion Hx.
Qed.

(** X2.  The creating validator makes the name checks of the opening
    validator first and with the same messages: a name the opening
    validator rejects is rejected with the very same exception whatever
    [max_instances] is; a name it accepts is rejected only for
    [max_instances] being zero or above [PIPE_UNLIMITED_INSTANCES]. *)
Theorem validate_create_param_checks_name_first name max_instances w :
  (forall e, validate_open_param name w = (Throw e, w) ->
             validate_create_param name max_instances w = (Throw e, w))
  /\ (validate_open_param name w = (Ret tt, w) ->
      validate_create_param name max_instances w =
        if max_instances =? 0
        then (Throw (invalid_argument "'max_instances' can't be zero."), w)
        else if PIPE_UNLIMITED_INSTANCES <? max_instances
             then (Throw (invalid_argument "'max_instances' can't be greater than 255"), w)
             else (Ret tt, w)).
Proof.
  unfold validate_open_param, validate_create_param, ret, throw.
  destruct (length name =? 0); [split; [tauto | discriminate]|].
  destruct (MAX_PATH_MINUS_PREFIX <=? length name); [split; [tauto | discriminate]|].
  split; [discriminate|]. intros _.
  destruct (max_instances =? 0); [reflexivity|].
  destruct (PIPE_UNLIMITED_INSTANCES <? max_instances); reflexivity.
Qed.

(** X3.  When the normalised name cannot be converted to a wide string, no
    constructor reaches the OS: the world is left as it was, and the
    constructor ends with the argument error of its validator or with
    [std::range_error]. *)
Theorem conversion_failure_precedes_native_calls os from_bytes how name w :
  from_bytes (converted_text name) = None ->
  snd (construct os from_bytes how name w) = w
  /\ ((exists what,
          fst (construct os from_bytes how name w) = Throw (invalid_argument what))
      \/ fst (construct os from_bytes how name w) = Throw range_error).
Proof.
  intros Hconv.
  destruct how as [mi type mode uniq|junk mi type mode uniq|mode];
    unfold construct, create_only, create_or_open, open_only, bind.
  - destruct (validate_create_param_cases name mi w) as [[_ [what Hv]]|[_ Hv]];
      rewrite Hv; cbn [fst snd]; [eauto|].
    unfold make_wide_string. fold (converted_text name). rewrite Hconv.
    cbn; auto.
  - destruct (validate_create_param_cases name mi w) as [[_ [what Hv]]|[_ Hv]];
      rewrite Hv; cbn [fst snd]; [eauto|].
    unfold make_wide_string. fold (converted_text name). rewrite Hconv.
    cbn; auto.
  - destruct (validate_open_param_cases name w) as [[_ [what Hv]]|[_ Hv]];
      rewrite Hv; cbn [fst snd]; [eauto|].
    unfold make_wide_string. fold (converted_text name). rewrite Hconv.
    cbn; auto.
Qed.

Lemma new_events_same (w : world) : new_events w w = [].
Proof.
  unfold new_events. apply skipn_all.
Qed.

Lemma new_events_one (w : world) (e : DWORD) (ev : event) :
  new_events w {| last_error := e; trace := (trace w ++ [ev])%list |} = [ev].
Proof.
  apply new_events_extend.
Qed.

(** X4.  Past validation and conversion, [CreateOnly] makes one native
    call, the [CreateNamedPipeW] of [create_logic].  When the returned
    handle is null or the last error is no longer ERROR_SUCCESS it throws
    the runtime error whose message ends with the last-error value in
    upper-case hexadecimal.  Otherwise control reaches the closing brace of
    [create_logic], which has no [return]: the run is undefined from
    there, and no pipe is returned.  The last error is left as the call
    set it. *)
Theorem create_only_outcome os from_bytes name max_instances type mode is_unique
    w wide :
  ~ rejected_create_arguments name max_instances ->
  from_bytes (converted_text name) = Some wide ->
  let c := create_call wide max_instances type mode is_unique in
  let run := create_only os from_bytes name max_instances type mode is_unique w in
  new_events w (snd run) = [Sys c]
  /\ last_error (snd run) = native_status os w c
  /\ fst run =
       if (ans_ret (os (syscalls (trace w)) c) =? 0)
          || negb (native_status os w c =? ERROR_SUCCESS)
       then Throw (runtime_error
                     ("Creating Named Pipe failed with error code "
                      ++ sprintf_lX (native_status os w c) ++ "."))
       else Undefined.
Proof.
  intros Hok Hconv. cbv zeta.
  rewrite (create_only_past_validation _ _ _ _ _ _ _ _ _ Hok Hconv).
  cbv zeta. cbn [fst snd last_error]. rewrite new_events_one.
  split; [reflexivity|]. split; reflexivity.
Qed.

(** X5.  Past validation and conversion, [OpenOnly] makes one native call,
    [CreateFileW] with read and write access, no sharing, OPEN_EXISTING and
    the overlapped flag; the call, and with it the whole run, is the same
    for every read mode passed.  When the returned handle is null or the
    last error is no longer ERROR_SUCCESS it throws the "Opening" runtime
    error.  Otherwise control reaches the closing brace of [open_logic],
    which has no [return]: the run is undefined from there, and no pipe is
    returned. *)
Theorem open_only_outcome os from_bytes name mode w wide :
  ~ (length name = 0 \/ MAX_PATH_MINUS_PREFIX <= length name) ->
  from_bytes (converted_text name) = Some wide ->
  let c := CreateFileW (c_str wide) 3221225472 0 3 1073741824 in
  let run := open_only os from_bytes name mode w in
  new_events w (snd run) = [Sys c]
  /\ last_error (snd run) = native_status os w c
  /\ fst run =
       (if (ans_ret (os (syscalls (trace w)) c) =? 0)
           || negb (native_status os w c =? ERROR_SUCCESS)
        then Throw (runtime_error
                      ("Opening Named Pipe failed with error code "
                       ++ sprintf_lX (native_status os w c) ++ "."))
        else Undefined)
  /\ forall mode', open_only os from_bytes name mode' w = run.
Proof.
  intros Hok Hconv. cbv zeta.
  rewrite (open_only_past_validation _ _ _ mode _ _ Hok Hconv).
  cbv zeta. cbn [fst snd last_error]. rewrite new_events_one.
  split; [reflexivity|]. split; [reflexivity|]. split; [reflexivity|].
  intros mode'. now rewrite (open_only_past_validation _ _ _ mode' _ _ Hok Hconv).
Qed.

(** X6.  The arguments of the [CreateNamedPipeW] call of [create_logic]:
    the open mode always has the duplex, write-through and overlapped
    bits, and has the first-instance bit exactly when [is_unique]; the pipe
    mode has the message-type bit exactly for [pipe_type::Message] and
    the message-read bit exactly for [pipe_read_mode::Message]; the
    instance count is [max_instances] cut to 32 bits, which is
    [max_instances] itself for the values validation lets through; both
    buffer sizes are 65535 and the timeout is 100. *)
Theorem create_logic_call_arguments os name max_instances type mode is_unique w :
  exists open_mode pipe_mode,
    new_events w (snd (create_logic os name max_instances type mode is_unique w))
    = [Sys (CreateNamedPipeW (c_str name) open_mode pipe_mode
              (max_instances mod 2 ^ 32) 65535 65535 100)]
    /\ N.land open_mode 3 = 3
    /\ N.testbit open_mode 31 = true
    /\ N.testbit open_mode 30 = true
    /\ N.testbit open_mode 19 = is_unique
    /\ N.testbit pipe_mode 2
       = match type with pipe_type.Message => true | pipe_type.Byte => false end
    /\ N.testbit pipe_mode 1
       = match mode with
         | pipe_read_mode.Message => true
         | pipe_read_mode.Byte => false
         end
    /\ (max_instances <= PIPE_UNLIMITED_INSTANCES ->
        max_instances mod 2 ^ 32 = max_instances).
Proof.
  exists (create_open_mode is_unique), (create_pipe_mode type mode).
  split.
  { rewrite create_logic_closed_form. cbv zeta.
    destruct (native_failed os w _); cbn [snd]; now rewrite new_events_one. }
  repeat split.
  - destruct is_unique; vm_compute; reflexivity.
  - destruct is_unique; vm_compute; reflexivity.
  - destruct is_unique; vm_compute; reflexivity.
  - destruct is_unique; vm_compute; reflexivity.
  - destruct type, mode; vm_compute; reflexivity.
  - destruct type, mode; vm_compute; reflexivity.
  - unfold PIPE_UNLIMITED_INSTANCES. intros H. apply N.mod_small.
    apply N.le_lt_trans with (m := 255); [exact H | reflexivity].
Qed.


(** X8.  Whenever [CreateOnly] throws, [CreateOrOpen] with the same
    arguments throws the same exception and leaves the same world, whatever
    value its condition reads; [CreateFileW] is not among the native calls
    made. *)
Theorem create_or_open_fails_like_create_only os from_bytes junk name
    max_instances type mode is_unique w e w' :
  create_only os from_bytes name max_instances type mode is_unique w = (Throw e, w') ->
  create_or_open os from_bytes junk name max_instances type mode is_unique w
  = (Throw e, w')
  /\ forall c, In c (syscalls (new_events w w')) -> is_CreateFileW c = false.
Proof.
  intros Hrun. split; [now apply create_or_open_rethrows|].
  revert Hrun.
  destruct (validate_create_param_cases name max_instances w)
    as [[_ [what Hv]]|[Hok Hv]].
  { unfold create_only, bind. rewrite Hv. intros H; inversion H; subst.
    rewrite new_events_same. contradiction. }
  destruct (from_bytes (converted_text name)) as [wide|] eqn:Hconv.
  - rewrite (create_only_past_validation _ _ _ _ _ _ _ _ _ Hok Hconv). cbv zeta.
    intros H; inversion H; subst. rewrite new_events_one.
    intros c [Hc|[]]. subst c. reflexivity.
  - unfold create_only, bind, make_wide_string. rewrite Hv.
    fold (converted_text name). rewrite Hconv.
    intros H; inversion H; subst. rewrite new_events_same. contradiction.
Qed.

(** * Further properties of read and write *)

(** X9.  A read or a write returns [Success] exactly when the native call
    did not fail or failed with the queued-pending status.  The call then
    invokes [set_valid(true)] as its last step, after the native call, and
    hands back a valid request bound to the pipe's handle; [cancel] is not
    invoked. *)
Theorem submission_accepted_iff os dir this request n w :
  ((exists r, fst (transfer os dir this request n w) = Ret (error.Success, r))
   <-> native_failed os w (transfer_call dir this n) = false
       \/ native_status os w (transfer_call dir this n) = ERROR_IO_PENDING)
  /\ (native_failed os w (transfer_call dir this n) = false
      \/ native_status os w (transfer_call dir this n) = ERROR_IO_PENDING ->
      transfer os dir this request n w
      = (Ret (error.Success, {| ar_handle := handle this; ar_valid := true |}),
         {| last_error := native_status os w (transfer_call dir this n);
            trace := (trace w ++ before_submission this request
                      ++ [Sys (transfer_call dir this n); Req (m_set_valid true)])%list |})).
Proof.
  rewrite transfer_closed_form. cbv zeta.
  destruct (native_failed os w (transfer_call dir this n)) eqn:Hf.
  - destruct (native_status os w _ =? ERROR_MORE_DATA) eqn:E1.
    { apply N.eqb_eq in E1. rewrite E1.
      split; [split|]; [intros [r H]; discriminate | | ];
        intros [H|H]; discriminate. }
    destruct (native_status os w _ =? ERROR_BROKEN_PIPE) eqn:E2.
    { apply N.eqb_eq in E2. rewrite E2.
      split; [split|]; [intros [r H]; discriminate | | ];
        intros [H|H]; discriminate. }
    destruct (native_status os w _ =? ERROR_IO_PENDING) eqn:E3; cbn [negb].
    + apply N.eqb_eq in E3.
      split; [split; [intros _; now right | intros _; eexists; reflexivity]
             | reflexivity].
    + apply N.eqb_neq in E3.
      split; [split|]; [intros [r H]; discriminate | | ];
        intros [H|H]; (discriminate || contradiction).
  - split; [split; [intros _; now left | intros _; eexists; reflexivity]
           | reflexivity].
Qed.

(** X10.  When the submission of a read or a write reports broken-pipe,
    the call returns [Disconnected] right after the native call: neither
    [cancel] nor [set_valid] is invoked and the request comes back as it
    was submitted. *)
Theorem disconnected_leaves_request_alone os dir this request n w :
  native_status os w (transfer_call dir this n) = ERROR_BROKEN_PIPE ->
  transfer os dir this request n w
  = (Ret (error.Disconnected, request_at_submission this request),
     {| last_error := ERROR_BROKEN_PIPE;
        trace := (trace w ++ before_submission this request
                  ++ [Sys (transfer_call dir this n)])%list |}).
Proof.
  intros Hst. rewrite transfer_closed_form. cbv zeta.
  unfold native_failed. rewrite Hst.
  now rewrite orb_true_r.
Qed.

(** X11.  A read or a write never throws and makes exactly one native call,
    the submission on the pipe's handle.  The request it hands back is bound
    to the pipe's handle, and a request is constructed exactly when the
    caller passed an empty pointer. *)
Theorem transfer_submits_once os dir this request n w :
  exists out r w',
    transfer os dir this request n w = (Ret (out, r), w')
    /\ syscalls (new_events w w') = [transfer_call dir this n]
    /\ ar_handle r = handle this
    /\ (In (Req (m_construct (handle this))) (new_events w w') <-> request = None).
Proof.
  rewrite transfer_closed_form. cbv zeta.
  assert (Hsys : forall evs,
             syscalls (before_submission this request ++ evs) = syscalls evs).
  { intros evs. rewrite syscalls_app.
    unfold before_submission. destruct request; reflexivity. }
  assert (Hnew : forall evs,
             (forall h, ~ In (Req (m_construct h)) evs) ->
             (In (Req (m_construct (handle this)))
                 (before_submission this request ++ evs) <-> request = None)).
  { intros evs Hevs. rewrite in_app_iff. unfold before_submission.
    destruct request; cbn [app In]; split; intros H; try discriminate; auto.
    destruct H as [[H|[H|[]]]|H]; try discriminate. now apply Hevs in H. }
  destruct (native_failed os w _);
    [destruct (native_status os w _ =? ERROR_MORE_DATA);
     [|destruct (native_status os w _ =? ERROR_BROKEN_PIPE);
       [|destruct (negb (native_status os w _ =? ERROR_IO_PENDING))]]|].
  all: do 3 eexists; split; [reflexivity|];
    rewrite new_events_extend, Hsys; split; [reflexivity|];
    split; [reflexivity|];
    apply Hnew; intros h; cbn [In]; intuition discriminate.
Qed.

(** X12.  The buffer length reaches the native call cut to 32 bits: two
    lengths that differ by a multiple of 2^32 give the same run, so a
    length of exactly 2^32 submits a transfer of zero bytes. *)
Theorem buffer_length_is_truncated os dir this request n k w :
  transfer os dir this request (n + k * 2 ^ 32) w = transfer os dir this request n w
  /\ transfer_call dir this (2 ^ 32)
     = match dir with
       | Reading => ReadFileEx (handle this) 0
       | Writing => WriteFileEx (handle this) 0
       end.
Proof.
  split; [|destruct dir; reflexivity].
  assert (Hc : transfer_call dir this (n + k * 2 ^ 32) = transfer_call dir this n).
  { unfold transfer_call, to_DWORD.
    rewrite N.Div0.mod_add. reflexivity. }
  rewrite !transfer_closed_form. cbv zeta. rewrite Hc. reflexivity.
Qed.

(** X13.  The last-error value a caller arrives with has no influence:
    every read, write and probe resets it first, so the whole run depends
    only on the log; and every constructor ends the same way (the same
    exception, or the same missing return) whatever the value was. *)
Theorem stale_last_error_is_ignored os from_bytes e e' t :
  (forall dir this request n,
      transfer os dir this request n {| last_error := e; trace := t |}
      = transfer os dir this request n {| last_error := e'; trace := t |})
  /\ (forall which this avail,
         peek os which this avail {| last_error := e; trace := t |}
         = peek os which this avail {| last_error := e'; trace := t |})
  /\ (forall how name,
         fst (construct os from_bytes how name {| last_error := e; trace := t |})
         = fst (construct os from_bytes how name {| last_error := e'; trace := t |})).
Proof.
  split; [|split].
  - intros. rewrite !transfer_closed_form. reflexivity.
  - intros. rewrite !peek_closed_form. reflexivity.
  - intros how name.
    set (w1 := {| last_error := e; trace := t |}).
    set (w2 := {| last_error := e'; trace := t |}).
    destruct how as [mi type mode uniq|junk mi type mode uniq|mode]; cbn [construct].
    + destruct (validate_create_param_cases name mi w1) as [[Hbad [what Hv]]|[Hok Hv]].
      { destruct (validate_create_param_cases name mi w2)
          as [[_ [what' Hv']]|[Hok' _]]; [|tauto].
        unfold create_only, bind. rewrite Hv, Hv'. cbn [fst].
        revert Hv Hv'. unfold validate_create_param, throw, ret.
        repeat match goal with
               | |- context [if ?b then _ else _] => destruct b
               end; congruence. }
      destruct (from_bytes (converted_text name)) as [wide|] eqn:Hconv.
      * rewrite !(create_only_past_validation _ _ _ _ _ _ _ _ _ Hok Hconv).
        reflexivity.
      * unfold create_only, bind, make_wide_string.
        rewrite Hv, (validate_create_param_passes name mi w2 Hok).
        fold (converted_text name). rewrite Hconv. reflexivity.
    + destruct (validate_create_param_cases name mi w1) as [[Hbad [what Hv]]|[Hok Hv]].
      { destruct (validate_create_param_cases name mi w2)
          as [[_ [what' Hv']]|[Hok' _]]; [|tauto].
        unfold create_or_open, bind. rewrite Hv, Hv'. cbn [fst].
        revert Hv Hv'. unfold validate_create_param, throw, ret.
        repeat match goal with
               | |- context [if ?b then _ else _] => destruct b
               end; congruence. }
      destruct (from_bytes (converted_text name)) as [wide|] eqn:Hconv.
      * rewrite !(create_or_open_past_validation _ _ _ _ _ _ _ _ _ _ Hok Hconv).
        subst w1 w2. cbv zeta.
        unfold native_failed, native_status. cbn [trace]. reflexivity.
      * unfold create_or_open, bind, make_wide_string.
        rewrite Hv, (validate_create_param_passes name mi w2 Hok).
        fold (converted_text name). rewrite Hconv. reflexivity.
    + destruct (validate_open_param_cases name w1) as [[Hbad [what Hv]]|[Hok Hv]].
      { destruct (validate_open_param_cases name w2)
          as [[_ [what' Hv']]|[Hok' _]]; [|tauto].
        unfold open_only, bind. rewrite Hv, Hv'. cbn [fst].
        revert Hv Hv'. unfold validate_open_param, throw, ret.
        repeat match goal with
               | |- context [if ?b then _ else _] => destruct b
               end; congruence. }
      destruct (from_bytes (converted_text name)) as [wide|] eqn:Hconv.
      * rewrite !(open_only_past_validation _ _ _ _ _ _ Hok Hconv).
        reflexivity.
      * destruct (validate_open_param_cases name w2) as [[Hbad' _]|[_ Hv']]; [tauto|].
        unfold open_only, bind, make_wide_string.
        rewrite Hv, Hv'.
        fold (converted_text name). rewrite Hconv. reflexivity.
Qed.

(** * Further properties of the probes *)

(** X14.  [available] and [total_available] never throw and make exactly
    one native call, the peek on the pipe's handle.  They return [Error]
    exactly when the peek failed with a status other than broken-pipe (in
    particular when it returned FALSE without setting a last error),
    [Disconnected] exactly when it failed with broken-pipe, and reach the
    end of the function exactly when it did not fail. *)
Theorem peek_outcome_classification os which this avail w :
  exists r avail',
    peek os which this avail w
    = (Ret (r, avail'),
       {| last_error := native_status os w (probe_call which this);
          trace := (trace w ++ [Sys (probe_call which this)])%list |})
    /\ (r = Returns error.Error
        <-> native_failed os w (probe_call which this) = true
            /\ native_status os w (probe_call which this) <> ERROR_BROKEN_PIPE)
    /\ (r = Returns error.Disconnected
        <-> native_failed os w (probe_call which this) = true
            /\ native_status os w (probe_call which this) = ERROR_BROKEN_PIPE)
    /\ (r = FallsOff <-> native_failed os w (probe_call which this) = false)
    /\ (ans_ret (os (syscalls (trace w)) (probe_call which this)) = 0 ->
        ans_err (os (syscalls (trace w)) (probe_call which this)) = None ->
        r = Returns error.Error).
Proof.
  rewrite peek_closed_form. cbv zeta.
  unfold native_failed at 1.
  destruct (native_failed os w (probe_call which this)) eqn:Hf.
  - unfold native_failed in Hf. rewrite Hf.
    destruct (native_status os w _ =? ERROR_BROKEN_PIPE) eqn:E.
    + apply N.eqb_eq in E. do 2 eexists. split; [reflexivity|].
      repeat split; try tauto; try discriminate;
        try (intros [_ H]; now elim H).
      intros _ Herr. unfold native_status in E. rewrite Herr in E. discriminate.
    + apply N.eqb_neq in E. do 2 eexists. split; [reflexivity|].
      repeat split; try tauto; try discriminate.
  - unfold native_failed in Hf. rewrite Hf.
    do 2 eexists. split; [reflexivity|].
    repeat split; try tauto; try discriminate; try (intros [H _]; discriminate).
    intros Hret _. rewrite Hret in Hf. discriminate.
Qed.

(** * Further properties of the name *)

Lemma nul_unit (c : ascii) : (N_of_ascii c =? 0) = Ascii.eqb c NUL.
Proof.
  destruct c as [[] [] [] [] [] [] [] []]; reflexivity.
Qed.

Lemma c_str_units (s : string) : c_str (units s) = units (before_NUL s).
Proof.
  unfold units.
  induction s as [|c s IH]; [reflexivity|].
  cbn [list_ascii_of_string map c_str before_NUL].
  rewrite nul_unit. destruct (Ascii.eqb c NUL); [reflexivity|].
  cbn [list_ascii_of_string map]. now rewrite IH.
Qed.

Lemma before_NUL_terminated (s rest : string) :
  before_NUL (s ++ String NUL rest) = before_NUL s.
Proof.
  induction s as [|c s IH]; [reflexivity|].
  cbn [append before_NUL]. destruct (Ascii.eqb c NUL); [reflexivity | now rewrite IH].
Qed.

Lemma before_NUL_forward_slashes (s : string) :
  before_NUL (forward_slashes s) = forward_slashes (before_NUL s).
Proof.
  unfold forward_slashes.
  induction s as [|c s IH]; [reflexivity|].
  cbn [map_string before_NUL].
  destruct (Ascii.eqb c backslash) eqn:Eb.
  - apply Ascii.eqb_eq in Eb. subst c.
    change (Ascii.eqb slash NUL) with false. change (Ascii.eqb backslash NUL) with false.
    cbn [map_string]. change (Ascii.eqb backslash backslash) with true.
    now rewrite IH.
  - destruct (Ascii.eqb c NUL); [reflexivity|].
    cbn [map_string]. now rewrite Eb, IH.
Qed.

Lemma native_name (name : string) :
  c_str (units (converted_text name))
  = units (pipe_prefix ++ forward_slashes (before_NUL name)).
Proof.
  rewrite c_str_units. f_equal.
  unfold converted_text, make_windows_compatible. cbv zeta.
  change (before_NUL (pipe_prefix ++ forward_slashes (name ++ String NUL "")))
    with (pipe_prefix ++ before_NUL (forward_slashes (name ++ String NUL ""))).
  now rewrite before_NUL_forward_slashes, before_NUL_terminated.
Qed.

Lemma before_NUL_without_NUL (s : string) :
  (forall i, String.get i s <> Some NUL) -> before_NUL s = s.
Proof.
  induction s as [|c s IH]; [reflexivity|].
  intros H. cbn [before_NUL].
  destruct (Ascii.eqb c NUL) eqn:E.
  - apply Ascii.eqb_eq in E. subst c. now elim (H 0%nat).
  - f_equal. apply IH. intros i. exact (H (S i)).
Qed.

(** X15.  What [make_windows_compatible] returns: the nine characters of
    the prefix, then the name character by character with every backslash
    turned into a forward slash and every other character kept; the result
    is nine characters longer than the name and has no backslash after the
    prefix. *)
Theorem make_windows_compatible_pointwise (name : string) :
  String.length (make_windows_compatible name) = (9 + String.length name)%nat
  /\ substring 0 9 (make_windows_compatible name) = pipe_prefix
  /\ (forall i,
         String.get (9 + i) (make_windows_compatible name)
         = option_map (fun v => if Ascii.eqb v backslash then slash else v)
                      (String.get i name))
  /\ (forall i, String.get (9 + i) (make_windows_compatible name) <> Some backslash).
Proof.
  assert (Hget : forall i,
             String.get (9 + i) (make_windows_compatible name)
             = option_map (fun v => if Ascii.eqb v backslash then slash else v)
                          (String.get i name)).
  { intros i. unfold make_windows_compatible. cbv zeta.
    change (String.get (9 + i) (pipe_prefix ++ forward_slashes name))
      with (String.get i (forward_slashes name)).
    unfold forward_slashes. revert i.
    induction name as [|c name IH]; intros i; [now destruct i|].
    destruct i as [|i]; [reflexivity|].
    cbn [map_string String.get]. apply IH. }
  split; [apply length_make_windows_compatible|].
  split.
  { unfold make_windows_compatible. cbv zeta.
    change (substring 0 9 (pipe_prefix ++ forward_slashes name))
      with (pipe_prefix ++ substring 0 0 (forward_slashes name)).
    destruct (forward_slashes name); reflexivity. }
  split; [exact Hget|].
  intros i. rewrite Hget.
  destruct (String.get i name) as [c|]; [|discriminate].
  cbn [option_map]. destruct (Ascii.eqb c backslash) eqn:E.
  - discriminate.
  - intros H. inversion H. subst c. discriminate.
Qed.

(** X16.  The pipe name the OS is given.  For a name that passes
    validation and whose normalised text is converted unit by unit (as a
    7-bit text is), [CreateOnly] passes to [CreateNamedPipeW], and
    [OpenOnly] to [CreateFileW], the prefix followed by the name up to its
    first NUL character with backslashes turned into forward slashes: the
    appended terminator is not part of it, and a NUL inside the name cuts
    the rest of the name off.  A name without NUL is passed whole. *)
Theorem native_pipe_name os from_bytes name max_instances type mode is_unique w :
  ~ rejected_create_arguments name max_instances ->
  from_bytes (converted_text name) = Some (units (converted_text name)) ->
  new_events w (snd (create_only os from_bytes name max_instances type mode
                       is_unique w))
  = [Sys (CreateNamedPipeW (units (pipe_prefix ++ forward_slashes (before_NUL name)))
            (create_open_mode is_unique) (create_pipe_mode type mode)
            (to_DWORD max_instances)
            DEFAULT_BUFFER_SIZE DEFAULT_BUFFER_SIZE DEFAULT_WAIT_TIME)]
  /\ new_events w (snd (open_only os from_bytes name mode w))
     = [Sys (CreateFileW (units (pipe_prefix ++ forward_slashes (before_NUL name)))
               (N.lor GENERIC_READ GENERIC_WRITE) 0 OPEN_EXISTING FILE_FLAG_OVERLAPPED)]
  /\ ((forall i, String.get i name <> Some NUL) -> before_NUL name = name).
Proof.
  intros Hok Hconv.
  assert (Hopen : ~ (length name = 0 \/ MAX_PATH_MINUS_PREFIX <= length name)).
  { intros H. apply Hok. unfold rejected_create_arguments. tauto. }
  rewrite (create_only_past_validation _ _ _ _ _ _ _ _ _ Hok Hconv).
  rewrite (open_only_past_validation _ _ _ _ _ _ Hopen Hconv).
  cbv zeta. cbn [snd]. rewrite !new_events_one.
  unfold create_call, open_call. rewrite native_name.
  repeat split. apply before_NUL_without_NUL.
Qed.

(** * Further runs on concrete inputs *)

Lemma conversion_failure_precedes_native_calls_witness :
  utf8_utf16 (converted_text (String (ascii_of_nat 255) "")) = None
  /\ snd (construct (os_always (succeeds 420 None)) utf8_utf16
            (by_open_only pipe_read_mode.Message) (String (ascii_of_nat 255) "")
            initial_world) = initial_world
  /\ ((exists what,
          fst (construct (os_always (succeeds 420 None)) utf8_utf16
                 (by_open_only pipe_read_mode.Message) (String (ascii_of_nat 255) "")
                 initial_world) = Throw (invalid_argument what))
      \/ fst (construct (os_always (succeeds 420 None)) utf8_utf16
                (by_open_only pipe_read_mode.Message) (String (ascii_of_nat 255) "")
                initial_world) = Throw range_error).
Proof.
  split; [vm_compute; reflexivity|].
  apply (conversion_failure_precedes_native_calls
           (os_always (succeeds 420 None)) utf8_utf16
           (by_open_only pipe_read_mode.Message) (String (ascii_of_nat 255) "")
           initial_world).
  vm_compute; reflexivity.
Defined.

Lemma create_only_outcome_witness :
  ~ rejected_create_arguments "demo" 1
  /\ utf8_utf16 (converted_text "demo") = Some (units (converted_text "demo"))
  /\ fst (create_only (os_always (succeeds 420 None)) utf8_utf16 "demo" 1
            pipe_type.Message pipe_read_mode.Message false initial_world)
     = Undefined.
Proof.
  assert (H1 : ~ rejected_create_arguments "demo" 1).
  { unfold rejected_create_arguments, length, MAX_PATH_MINUS_PREFIX, MAX_PATH,
      PIPE_UNLIMITED_INSTANCES. cbn [String.length]. lia. }
  assert (H2 : utf8_utf16 (converted_text "demo")
               = Some (units (converted_text "demo")))
    by (vm_compute; reflexivity).
  split; [exact H1|]. split; [exact H2|].
  destruct (create_only_outcome (os_always (succeeds 420 None)) utf8_utf16 "demo" 1
              pipe_type.Message pipe_read_mode.Message false initial_world
              (units (converted_text "demo")) H1 H2) as [_ [_ Hrun]].
  rewrite Hrun. reflexivity.
Defined.

Lemma open_only_outcome_witness :
  ~ (length "demo" = 0 \/ MAX_PATH_MINUS_PREFIX <= length "demo")
  /\ utf8_utf16 (converted_text "demo") = Some (units (converted_text "demo"))
  /\ fst (open_only (os_name_held wide_pipe_demo 420) utf8_utf16 "demo"
            pipe_read_mode.Byte initial_world)
     = Undefined.
Proof.
  assert (H1 : ~ (length "demo" = 0 \/ MAX_PATH_MINUS_PREFIX <= length "demo")).
  { unfold length, MAX_PATH_MINUS_PREFIX, MAX_PATH. cbn [String.length]. lia. }
  assert (H2 : utf8_utf16 (converted_text "demo")
               = Some (units (converted_text "demo")))
    by (vm_compute; reflexivity).
  split; [exact H1|]. split; [exact H2|].
  destruct (open_only_outcome (os_name_held wide_pipe_demo 420) utf8_utf16 "demo"
              pipe_read_mode.Byte initial_world
              (units (converted_text "demo")) H1 H2) as [_ [_ [Hrun _]]].
  rewrite Hrun. reflexivity.
Defined.

Lemma create_or_open_fails_like_create_only_witness :
  create_only (os_name_held wide_pipe_demo 420) utf8_utf16 "demo" 1
    pipe_type.Byte pipe_read_mode.Byte false initial_world
  = (Throw (creating_failed ERROR_ACCESS_DENIED),
     {| last_error := ERROR_ACCESS_DENIED;
        trace := [Sys (create_call wide_pipe_demo 1 pipe_type.Byte
                         pipe_read_mode.Byte false)] |})
  /\ create_or_open (os_name_held wide_pipe_demo 420) utf8_utf16 false "demo" 1
       pipe_type.Byte pipe_read_mode.Byte false initial_world
     = (Throw (creating_failed ERROR_ACCESS_DENIED),
        {| last_error := ERROR_ACCESS_DENIED;
           trace := [Sys (create_call wide_pipe_demo 1 pipe_type.Byte
                            pipe_read_mode.Byte false)] |})
  /\ forall c,
       In c (syscalls
               (new_events initial_world
                  {| last_error := ERROR_ACCESS_DENIED;
                     trace := [Sys (create_call wide_pipe_demo 1 pipe_type.Byte
                                      pipe_read_mode.Byte false)] |})) ->
       is_CreateFileW c = false.
Proof.
  split; [vm_compute; reflexivity|].
  apply (create_or_open_fails_like_create_only
           (os_name_held wide_pipe_demo 420) utf8_utf16 false "demo" 1
           pipe_type.Byte pipe_read_mode.Byte false initial_world).
  vm_compute; reflexivity.
Defined.

Lemma disconnected_leaves_request_alone_witness :
  native_status (os_always (fails_with ERROR_BROKEN_PIPE)) initial_world
    (transfer_call Writing {| handle := 420 |} 16) = ERROR_BROKEN_PIPE
  /\ transfer (os_always (fails_with ERROR_BROKEN_PIPE)) Writing {| handle := 420 |}
       (Some {| ar_handle := 7; ar_valid := false |}) 16 initial_world
     = (Ret (error.Disconnected,
             request_at_submission {| handle := 420 |}
               (Some {| ar_handle := 7; ar_valid := false |})),
        {| last_error := ERROR_BROKEN_PIPE;
           trace := (trace initial_world
                     ++ before_submission {| handle := 420 |}
                          (Some {| ar_handle := 7; ar_valid := false |})
                     ++ [Sys (transfer_call Writing {| handle := 420 |} 16)])%list |}).
Proof.
  split; [reflexivity|].
  apply (disconnected_leaves_request_alone
           (os_always (fails_with ERROR_BROKEN_PIPE)) Writing {| handle := 420 |}
           (Some {| ar_handle := 7; ar_valid := false |}) 16 initial_world).
  reflexivity.
Defined.

Lemma native_pipe_name_witness :
  ~ rejected_create_arguments "a\b" 1
  /\ utf8_utf16 (converted_text "a\b") = Some (units (converted_text "a\b"))
  /\ new_events initial_world
       (snd (create_only (os_always (succeeds 420 None)) utf8_utf16 "a\b" 1
               pipe_type.Message pipe_read_mode.Message true initial_world))
     = [Sys (CreateNamedPipeW
               (units (pipe_prefix ++ forward_slashes (before_NUL "a\b")))
               (create_open_mode true)
               (create_pipe_mode pipe_type.Message pipe_read_mode.Message)
               (to_DWORD 1)
               DEFAULT_BUFFER_SIZE DEFAULT_BUFFER_SIZE DEFAULT_WAIT_TIME)].
Proof.
  assert (H1 : ~ rejected_create_arguments "a\b" 1).
  { unfold rejected_create_arguments, length, MAX_PATH_MINUS_PREFIX, MAX_PATH,
      PIPE_UNLIMITED_INSTANCES. cbn [String.length]. lia. }
  assert (H2 : utf8_utf16 (converted_text "a\b") = Some (units (converted_text "a\b")))
    by (vm_compute; reflexivity).
  split; [exact H1|]. split; [exact H2|].
  exact (proj1 (native_pipe_name (os_always (succeeds 420 None)) utf8_utf16 "a\b" 1
                  pipe_type.Message pipe_read_mode.Message true initial_world
                  H1 H2)).
Defined.
